(** * Verification of the DataExtractor engine of [regex.py]

    The development embeds the class [DataExtractor] of [src/regex.py]:
    its four patterns, its four validators, its four extractors and
    [extract_all].

    Texts are Python [str] values whose code points are below 256: a
    text is a list of characters, and a character is its code point.
    The character classes [\w], [\d], [\s], the word boundary [\b],
    [str.lower], [str.isdigit] and [str.strip] are Python's on these
    code points, the ones of Latin-1 above 127 included.

    The part of the [re] module the four patterns use is a backtracking
    matcher: sets, concatenation, alternation, greedy [?], [*], [+] and
    [{m,n}], and the assertion [\b].  It is embedded as the list of all
    ways a pattern can match at a position, in the order in which the
    backtracking search tries them; the head of the list is the match
    that [re] reports. *)

From Stdlib Require Import Ascii String Bool Arith Lia ZArith List.
From Stdlib Require Import DecimalString.
Import ListNotations.

Set Implicit Arguments.

Local Open Scope list_scope.

(** ** Texts and character classes *)

Definition text := list ascii.

(** A string literal of the source. *)
Definition txt (s : string) : text := list_ascii_of_string s.

Arguments txt s%_string.

Definition code (c : ascii) : nat := nat_of_ascii c.

Definition between (lo hi : nat) (c : ascii) : bool :=
  (lo <=? code c) && (code c <=? hi).

(** [\d]: below 256 the decimal digits are ['0'..'9']. *)
Definition is_digit (c : ascii) : bool := between 48 57 c.

Definition is_upper (c : ascii) : bool := between 65 90 c.
Definition is_lower (c : ascii) : bool := between 97 122 c.

(** The letters and the numbers above 127 that [\w] takes: the ordinal
    indicators, the micro sign, the superscripts and the fractions,
    and the letters from 192 on but the two operators 215 and 247. *)
Definition latin1_word (c : ascii) : bool :=
  (code c =? 170) || between 178 179 c || (code c =? 181)
  || between 185 186 c || between 188 190 c
  || between 192 214 c || between 216 246 c || between 248 255 c.

(** [\w]: the letters and the numbers, and the underscore. *)
Definition is_word (c : ascii) : bool :=
  is_digit c || is_upper c || is_lower c || (code c =? 95)
  || latin1_word c.

(** [\s] and [str.isspace]: tab, line feed, vertical tab, form feed,
    carriage return, the four separators 28..31, the space, the next
    line control 133 and the no-break space 160. *)
Definition is_space (c : ascii) : bool :=
  between 9 13 c || between 28 31 c || (code c =? 32)
  || (code c =? 133) || (code c =? 160).

(** ** Patterns *)

(** One item of a set [[...]], or a class or a literal outside a set. *)
Inductive citem : Type :=
| Cw                     (* \w *)
| Cd                     (* \d *)
| Cs                     (* \s *)
| Cc (c : ascii).        (* a literal character *)

Definition in_item (c : ascii) (i : citem) : bool :=
  match i with
  | Cw => is_word c
  | Cd => is_digit c
  | Cs => is_space c
  | Cc d => Ascii.eqb c d
  end.

Definition in_set (items : list citem) (c : ascii) : bool :=
  existsb (in_item c) items.

Inductive regex : Type :=
| OneOf (items : list citem)           (* [...] , \d , a literal *)
| Seq (r1 r2 : regex)                  (* r1 r2 *)
| Alt (r1 r2 : regex)                  (* r1|r2 *)
| Opt (r : regex)                      (* r? *)
| Star (r : regex)                     (* r* *)
| Plus (r : regex)                     (* r+ *)
| Rep (r : regex) (lo hi : nat)        (* r{lo,hi} *)
| WordB.                               (* \b *)

(** A literal string of a pattern: the sequence of its characters. *)
Fixpoint lit_chars (cs : text) : regex :=
  match cs with
  | [] => Rep (OneOf []) 0 0
  | [c] => OneOf [Cc c]
  | c :: cs' => Seq (OneOf [Cc c]) (lit_chars cs')
  end.

Definition lit (s : string) : regex := lit_chars (txt s).
Definition chr (s : string) : citem :=
  match s with
  | String c _ => Cc c
  | EmptyString => Cc zero
  end.

Arguments lit s%_string.
Arguments chr s%_string.

(** ** The backtracking matcher *)

(** The character before the current position, after [w] has been
    consumed from a position whose previous character was [prev]. *)
Definition last_opt (prev : option ascii) (w : text) : option ascii :=
  fold_left (fun _ c => Some c) w prev.

Definition is_word_opt (o : option ascii) : bool :=
  match o with
  | Some c => is_word c
  | None => false
  end.

(** [\b]: exactly one of the two neighbours is a word character; the
    outside of the text counts as a non-word character. *)
Definition at_boundary (prev : option ascii) (s : text) : bool :=
  xorb (is_word_opt prev) (is_word_opt (hd_error s)).

(** One matcher: from the previous character and the rest of the text to
    the numbers of characters it can consume, best first. *)
Definition matcher := option ascii -> text -> list nat.

(** [m1] then [m2]. *)
Definition then_ (m1 m2 : matcher) : matcher :=
  fun prev s =>
    flat_map (fun n => map (Nat.add n)
                           (m2 (last_opt prev (firstn n s)) (skipn n s)))
             (m1 prev s).

(** Greedy [{lo,hi}]: one more iteration is tried before stopping, and
    stopping is allowed once [lo] iterations are done. *)
Fixpoint rep (m : matcher) (lo hi : nat) : matcher :=
  fun prev s =>
    match hi with
    | 0 => if lo =? 0 then [0] else []
    | S hi' =>
        then_ m (rep m (lo - 1) hi') prev s
        ++ (if lo =? 0 then [0] else [])
    end.

(** Greedy [*].  An iteration that consumes nothing is not repeated; the
    fuel is the number of iterations that can still consume something. *)
Fixpoint star (fuel : nat) (m : matcher) : matcher :=
  fun prev s =>
    match fuel with
    | 0 => [0]
    | S fuel' =>
        flat_map (fun n =>
                    if n =? 0 then []
                    else map (Nat.add n)
                             (star fuel' m (last_opt prev (firstn n s))
                                   (skipn n s)))
                 (m prev s)
        ++ [0]
    end.

Fixpoint ends (r : regex) : matcher :=
  fun prev s =>
    match r with
    | OneOf items =>
        match s with
        | c :: _ => if in_set items c then [1] else []
        | [] => []
        end
    | Seq r1 r2 => then_ (ends r1) (ends r2) prev s
    | Alt r1 r2 => ends r1 prev s ++ ends r2 prev s
    | Opt r1 => ends r1 prev s ++ [0]
    | Star r1 => star (length s) (ends r1) prev s
    | Plus r1 => then_ (ends r1) (star (length s) (ends r1)) prev s
    | Rep r1 lo hi => rep (ends r1) lo hi prev s
    | WordB => if at_boundary prev s then [0] else []
    end.

(** ** Scanning: [re.finditer] and [re.findall] *)

(** A match object: where the match starts and what it matched. *)
Record match_obj : Type := MkMatch { m_start : nat; m_text : text }.

Definition m_end (m : match_obj) : nat := m_start m + length (m_text m).

(** The scan of [s], the rest of the text from position [pos], whose
    first [skip] characters belong to the match reported last.  At every
    other position the pattern is tried; its first way to match is
    reported and the scan resumes behind it.  An empty match is reported
    and the scan moves on by one character; none of the four patterns
    can match the empty string. *)
Fixpoint scan (r : regex) (prev : option ascii) (s : text) (pos skip : nat)
  : list match_obj :=
  match s with
  | [] =>
      match skip, ends r prev [] with
      | 0, _ :: _ => [MkMatch pos []]
      | _, _ => []
      end
  | c :: s' =>
      match skip with
      | S k => scan r (Some c) s' (S pos) k
      | 0 =>
          match ends r prev s with
          | [] => scan r (Some c) s' (S pos) 0
          | n :: _ =>
              MkMatch pos (firstn n s) :: scan r (Some c) s' (S pos) (n - 1)
          end
      end
  end.

Definition finditer (r : regex) (t : text) : list match_obj :=
  scan r None t 0 0.

(** [re.findall] for a pattern without capturing groups. *)
Definition findall (r : regex) (t : text) : list text :=
  map m_text (finditer r t).

(** ** The four patterns of [DataExtractor.__init__] *)

(** email_pattern = r"[\w.+-]+@[\w-]+(?:\.[\w-]+)+" *)
Definition email_pattern : regex :=
  Seq (Plus (OneOf [Cw; chr "."; chr "+"; chr "-"]))
 (Seq (OneOf [chr "@"])
 (Seq (Plus (OneOf [Cw; chr "-"]))
      (Plus (Seq (OneOf [chr "."]) (Plus (OneOf [Cw; chr "-"])))))).

(** url_pattern = r"https?://[\w.-]+(?:/[\w./?%&=+-]*" r")?" *)
Definition url_pattern : regex :=
  Seq (lit "http")
 (Seq (Opt (OneOf [chr "s"]))
 (Seq (lit "://")
 (Seq (Plus (OneOf [Cw; chr "."; chr "-"]))
      (Opt (Seq (OneOf [chr "/"])
                (Star (OneOf [Cw; chr "."; chr "/"; chr "?"; chr "%";
                              chr "&"; chr "="; chr "+"; chr "-"]))))))).

(** The separator "[-.\s]" of the phone pattern. *)
Definition phone_sep : regex := OneOf [chr "-"; chr "."; Cs].

(** phone_pattern =
    r"(?:\+\d{1,3}[-.\s]?)?(?:\(\d{3}\)|\d{3})[-.\s]?\d{3}[-.\s]?\d{4}(?:\s?(?:ext|x)\s?\d{2,5})?" *)
Definition phone_pattern : regex :=
  Seq (Opt (Seq (OneOf [chr "+"])
           (Seq (Rep (OneOf [Cd]) 1 3) (Opt phone_sep))))
 (Seq (Alt (Seq (OneOf [chr "("])
           (Seq (Rep (OneOf [Cd]) 3 3) (OneOf [chr ")"])))
           (Rep (OneOf [Cd]) 3 3))
 (Seq (Opt phone_sep)
 (Seq (Rep (OneOf [Cd]) 3 3)
 (Seq (Opt phone_sep)
 (Seq (Rep (OneOf [Cd]) 4 4)
      (Opt (Seq (Opt (OneOf [Cs]))
           (Seq (Alt (lit "ext") (lit "x"))
           (Seq (Opt (OneOf [Cs])) (Rep (OneOf [Cd]) 2 5)))))))))).

(** The repeated group "(?:\d[ -]?)" of the card pattern. *)
Definition card_item : regex :=
  Seq (OneOf [Cd]) (Opt (OneOf [chr " "; chr "-"])).

(** credit_card_pattern = r"\b(?:\d[ -]?){13,19}\b" *)
Definition credit_card_pattern : regex :=
  Seq WordB (Seq (Rep card_item 13 19) WordB).

(** ** Python string operations used by the validators *)

Local Open Scope list_scope.

(** [s.startswith(p)] *)
Fixpoint startswith (p s : text) : bool :=
  match p, s with
  | [], _ => true
  | _ :: _, [] => false
  | a :: p', b :: s' => Ascii.eqb a b && startswith p' s'
  end.

(** [s.endswith(p)] *)
Definition endswith (p s : text) : bool := startswith (rev p) (rev s).

(** [sub in s] *)
Fixpoint contains (sub s : text) : bool :=
  startswith sub s
  || match s with
     | [] => false
     | _ :: s' => contains sub s'
     end.

(** [c in s] for a single character. *)
Definition contains_char (c : ascii) (s : text) : bool :=
  existsb (Ascii.eqb c) s.

(** The capital letters, ['A'..'Z'] and 192..222 but the operator 215,
    have their small letter 32 code points further. *)
Definition lower_char (c : ascii) : ascii :=
  if is_upper c || between 192 214 c || between 216 222 c
  then ascii_of_nat (code c + 32)
  else c.

(** [s.lower()] *)
Definition lower (s : text) : text := map lower_char s.

(** [s.split(sep)] for a separator of one character. *)
Fixpoint split (sep : ascii) (s : text) : list text :=
  match s with
  | [] => [[]]
  | c :: s' =>
      if Ascii.eqb c sep then [] :: split sep s'
      else match split sep s' with
           | p :: ps => (c :: p) :: ps
           | [] => [[c]]
           end
  end.

(** [s.replace(old, new)] for [old] of one character. *)
Definition replace (old : ascii) (new : text) (s : text) : text :=
  flat_map (fun c => if Ascii.eqb c old then new else [c]) s.

(** [re.sub(r'\D', '', s)]: every character that is not a digit is
    replaced by the empty string. *)
Definition sub_non_digits (s : text) : text :=
  flat_map (fun c => if negb (is_digit c) then [] else [c]) s.

(** A digit for [str.isdigit]: a decimal digit or one of the
    superscripts 178, 179 and 185. *)
Definition isdigit_char (c : ascii) : bool :=
  is_digit c || between 178 179 c || (code c =? 185).

(** [s.isdigit()]: not empty and digits only. *)
Definition isdigit (s : text) : bool :=
  match s with
  | [] => false
  | _ => forallb isdigit_char s
  end.

(** [set(s)], as the list of the distinct characters of [s]. *)
Definition set_of (s : text) : text := nodup ascii_dec s.

Fixpoint lstrip (s : text) : text :=
  match s with
  | [] => []
  | c :: s' => if is_space c then lstrip s' else s
  end.

(** [s.strip()] *)
Definition strip (s : text) : text := rev (lstrip (rev (lstrip s))).

(** [c * n] for a character [c] and an integer [n]: empty when [n] is
    not positive. *)
Definition times (c : ascii) (n : Z) : text := repeat c (Z.to_nat n).

(** [s[-k:]] for a positive [k]: the last [k] characters, all of [s] when
    it is shorter. *)
Definition last_chars (k : nat) (s : text) : text :=
  skipn (length s - k) s.

Definition len (s : text) : Z := Z.of_nat (length s).

Arguments split sep%_char s.
Arguments replace old%_char new s.
Arguments times c%_char n%_Z.

(** ** Exceptions *)

Inductive exn : Type := ValueError.

(** What a call does: it returns a value or raises an exception. *)
Inductive outcome (A : Type) : Type :=
| Returns (a : A)
| Raises (e : exn).

Arguments Returns {A} a.
Arguments Raises {A} e.

Definition bind {A B : Type} (c : outcome A) (k : A -> outcome B)
  : outcome B :=
  match c with
  | Returns a => k a
  | Raises e => Raises e
  end.

Notation "x <- c ;; k" := (bind c (fun x => k))
  (at level 61, c at next level, right associativity).

(** [a, b = parts]: unpacking raises [ValueError] unless there are
    exactly two parts. *)
Definition unpack2 (parts : list text) : outcome (text * text) :=
  match parts with
  | [a; b] => Returns (a, b)
  | _ => Raises ValueError
  end.

(** A [for] loop over [xs] whose body updates the local state [st]. *)
Fixpoint for_each {A S : Type} (xs : list A) (body : A -> S -> outcome S)
  (st : S) : outcome S :=
  match xs with
  | [] => Returns st
  | x :: xs' => st' <- body x st ;; for_each xs' body st'
  end.

(** ** The validators *)

Definition bad_stuff : list text :=
  [txt "union"; txt "select"; txt "drop"; txt "--"; txt "/*"; txt "*/"].

Definition validate_email (email : text) : outcome bool :=
  if contains (txt "..") email
     || startswith (txt ".") email
     || endswith (txt ".") email
  then Returns false
  else
    match unpack2 (split "@" email) with
    | Raises ValueError => Returns false
    | Returns (local, domain) =>
        if ((64 <? length local) || (255 <? length domain))
        then Returns false
        else if existsb (fun bad => contains bad (lower email)) bad_stuff
        then Returns false
        else Returns true
    end.

Definition validate_url (url : text) : outcome bool :=
  if existsb (fun p => startswith p (lower url))
             [txt "javascript:"; txt "data:"; txt "file:"; txt "about:"]
  then Returns false
  else if existsb (fun bad => contains bad (lower url))
                  [txt "<script"; txt "onerror"; txt "onload"]
  then Returns false
  else if contains_char zero url
  then Returns false
  else Returns true.

Definition validate_phone (phone : text) : outcome bool :=
  let digits := sub_non_digits phone in
  if negb ((10 <=? length digits) && (length digits <=? 15))
  then Returns false
  else if (length (set_of digits) =? 1)
  then Returns false
  else Returns true.

Definition validate_credit_card (card : text) : outcome bool :=
  let clean := replace "-" [] (replace " " [] card) in
  if negb (isdigit clean)
  then Returns false
  else if negb ((13 <=? length clean) && (length clean <=? 19))
  then Returns false
  else if (length (set_of clean) =? 1)
  then Returns false
  else Returns true.

(** ** Findings and the extractors *)

(** The dictionary appended to [results]; [raw_format] is [None] when
    the key is absent. *)
Record finding : Type := MkFinding {
  f_type : string;
  value : text;
  status : string;
  raw_format : option text
}.

Arguments MkFinding f_type%_string value status%_string raw_format.

Definition extract_emails (t : text) : outcome (list finding) :=
  let found := findall email_pattern t in
  for_each found
    (fun email results =>
       ok <- validate_email email ;;
       if ok
       then Returns (results ++ [MkFinding "email" email "valid" None])
       else Returns (results ++ [MkFinding "email" email "invalid" None]))
    [].

Definition extract_urls (t : text) : outcome (list finding) :=
  let found := findall url_pattern t in
  for_each found
    (fun url results =>
       ok <- validate_url url ;;
       if ok
       then Returns (results ++ [MkFinding "url" url "valid" None])
       else Returns (results ++ [MkFinding "url" url "invalid" None]))
    [].

Definition extract_phone_numbers (t : text) : outcome (list finding) :=
  let found := findall phone_pattern t in
  for_each found
    (fun phone results =>
       ok <- validate_phone phone ;;
       if ok
       then Returns (results ++ [MkFinding "phone" (strip phone) "valid" None])
       else Returns (results
                     ++ [MkFinding "phone" (strip phone) "invalid" None]))
    [].

Definition extract_credit_cards (t : text) : outcome (list finding) :=
  let found := findall credit_card_pattern t in
  for_each found
    (fun card results =>
       ok <- validate_credit_card card ;;
       if ok
       then
         let clean := replace "-" [] (replace " " [] card) in
         let masked := times "*" (len clean - 4) ++ last_chars 4 clean in
         Returns (results
                  ++ [MkFinding "credit_card" masked "valid" (Some card)])
       else
         Returns (results ++ [MkFinding "credit_card" card "invalid" None]))
    [].

(** The dictionary [extract_all] returns, in the order of its keys. *)
Definition findings_by_key : Type := list (string * list finding).

Definition extract_all (t : text) : outcome findings_by_key :=
  emails <- extract_emails t ;;
  urls <- extract_urls t ;;
  phones <- extract_phone_numbers t ;;
  credit_cards <- extract_credit_cards t ;;
  Returns [("emails"%string, emails); ("urls"%string, urls);
           ("phones"%string, phones);
           ("credit_cards"%string, credit_cards)].

(** [d[key]] *)
Fixpoint lookup (key : string) (d : findings_by_key)
  : option (list finding) :=
  match d with
  | [] => None
  | (k, v) :: d' => if String.eqb key k then Some v else lookup key d'
  end.

Arguments lookup key%_string d.


(** ** What one iteration of an extractor's loop appends *)

Definition returned_true (o : outcome bool) : bool :=
  match o with
  | Returns true => true
  | _ => false
  end.

Definition label (ok : bool) : string :=
  if ok then "valid"%string else "invalid"%string.

Definition email_finding (email : text) : finding :=
  MkFinding "email" email (label (returned_true (validate_email email))) None.

Definition url_finding (url : text) : finding :=
  MkFinding "url" url (label (returned_true (validate_url url))) None.

Definition phone_finding (phone : text) : finding :=
  MkFinding "phone" (strip phone)
            (label (returned_true (validate_phone phone))) None.

(** The card number without its spaces and hyphens. *)
Definition normalized (card : text) : text :=
  replace "-" [] (replace " " [] card).

(** The masked form of a normalized card number. *)
Definition masked (clean : text) : text :=
  times "*" (len clean - 4) ++ last_chars 4 clean.

Definition card_finding (card : text) : finding :=
  if returned_true (validate_credit_card card)
  then MkFinding "credit_card" (masked (normalized card)) "valid" (Some card)
  else MkFinding "credit_card" card "invalid" None.

(** ** Vocabulary of the specification *)

(** [sub] occurs in [s]. *)
Definition Occurs (sub s : text) : Prop :=
  exists pre post, s = pre ++ sub ++ post.

Definition Starts (p s : text) : Prop := exists post, s = p ++ post.
Definition Ends (p s : text) : Prop := exists pre, s = pre ++ p.

(** [s] is one local part and one domain part around a single [@]. *)
Definition SplitsAt (s local domain : text) : Prop :=
  s = local ++ "@"%char :: domain
  /\ ~ In "@"%char local /\ ~ In "@"%char domain.

(** All characters of [s] are the same one. *)
Definition AllIdentical (s : text) : Prop :=
  forall a b, In a s -> In b s -> a = b.

(** Deleting all spaces and hyphens. *)
Definition delete_spaces_hyphens (s : text) : text :=
  filter (fun c => negb (Ascii.eqb c " " || Ascii.eqb c "-")) s.

(** Deleting every character that is not a digit. *)
Definition digits_of (s : text) : text := filter is_digit s.



(** The reasons for which an email candidate is rejected. *)
Definition EmailRejected (email : text) : Prop :=
  Occurs (txt "..") email
  \/ Starts (txt ".") email
  \/ Ends (txt ".") email
  \/ (~ exists local domain, SplitsAt email local domain)
  \/ (exists local domain,
        SplitsAt email local domain
        /\ (64 < length local \/ 255 < length domain))
  \/ (exists bad,
        In bad [txt "union"; txt "select"; txt "drop"; txt "--"; txt "/*";
                txt "*/"]
        /\ Occurs bad (lower email)).

(** What makes a phone candidate acceptable. *)
Definition PhoneAccepted (phone : text) : Prop :=
  10 <= length (digits_of phone) <= 15
  /\ ~ AllIdentical (digits_of phone).


(** What makes [validate_credit_card] accept: the same, with the digits
    of [str.isdigit], which has the three superscripts too. *)
Definition CardAccepted (card : text) : Prop :=
  Forall (fun c => isdigit_char c = true) (delete_spaces_hyphens card)
  /\ 13 <= length (delete_spaces_hyphens card) <= 19
  /\ ~ AllIdentical (delete_spaces_hyphens card).

(** A candidate and the finding reported for it agree with what the
    validator returned. *)
Definition Classified (validate : text -> outcome bool)
           (cand : text) (f : finding) : Prop :=
  (validate cand = Returns true /\ status f = "valid"%string)
  \/ (validate cand = Returns false /\ status f = "invalid"%string).

(** ** What a pattern matches *)

(** [matches r prev w rest]: the pattern [r] matches the word [w] when
    the character before [w] is [prev] and the text goes on with [rest]
    behind it. *)
Inductive matches : regex -> option ascii -> text -> text -> Prop :=
| M_OneOf items c prev rest :
    in_set items c = true ->
    matches (OneOf items) prev [c] rest
| M_Seq r1 r2 prev w1 w2 rest :
    matches r1 prev w1 (w2 ++ rest) ->
    matches r2 (last_opt prev w1) w2 rest ->
    matches (Seq r1 r2) prev (w1 ++ w2) rest
| M_AltL r1 r2 prev w rest :
    matches r1 prev w rest -> matches (Alt r1 r2) prev w rest
| M_AltR r1 r2 prev w rest :
    matches r2 prev w rest -> matches (Alt r1 r2) prev w rest
| M_OptSome r prev w rest :
    matches r prev w rest -> matches (Opt r) prev w rest
| M_OptNone r prev rest :
    matches (Opt r) prev [] rest
| M_StarNil r prev rest :
    matches (Star r) prev [] rest
| M_StarCons r prev w1 w2 rest :
    matches r prev w1 (w2 ++ rest) ->
    matches (Star r) (last_opt prev w1) w2 rest ->
    matches (Star r) prev (w1 ++ w2) rest
| M_Plus r prev w1 w2 rest :
    matches r prev w1 (w2 ++ rest) ->
    matches (Star r) (last_opt prev w1) w2 rest ->
    matches (Plus r) prev (w1 ++ w2) rest
| M_RepNil r hi prev rest :
    matches (Rep r 0 hi) prev [] rest
| M_RepCons r lo hi prev w1 w2 rest :
    matches r prev w1 (w2 ++ rest) ->
    matches (Rep r (lo - 1) hi) (last_opt prev w1) w2 rest ->
    matches (Rep r lo (S hi)) prev (w1 ++ w2) rest
| M_WordB prev rest :
    at_boundary prev rest = true ->
    matches WordB prev [] rest.

(** A matcher reports only what a relation allows. *)
Definition sound (m : matcher)
           (R : option ascii -> text -> text -> Prop) : Prop :=
  forall prev s n,
    In n (m prev s) ->
    n <= length s /\ R prev (firstn n s) (skipn n s).

(** A lower bound on the length of what a pattern matches. *)
Fixpoint min_len (r : regex) : nat :=
  match r with
  | OneOf _ => 1
  | Seq r1 r2 => min_len r1 + min_len r2
  | Alt r1 r2 => Nat.min (min_len r1) (min_len r2)
  | Opt _ => 0
  | Star _ => 0
  | Plus r1 => min_len r1
  | Rep r1 lo _ => lo * min_len r1
  | WordB => 0
  end.

(** All the characters there are. *)
Definition all_chars : list ascii := map ascii_of_nat (seq 0 256).

(** Every set of the pattern that can give the first character of a
    match holds only characters that satisfy [P]. *)
Fixpoint first_all (P : ascii -> bool) (r : regex) : bool :=
  match r with
  | OneOf items => forallb (fun c => implb (in_set items c) (P c)) all_chars
  | Seq r1 r2 => first_all P r1 && ((0 <? min_len r1) || first_all P r2)
  | Alt r1 r2 => first_all P r1 && first_all P r2
  | Opt r1 => first_all P r1
  | Star r1 => first_all P r1
  | Plus r1 => first_all P r1
  | Rep r1 _ _ => first_all P r1
  | WordB => true
  end.

(** The same for the last character of a match. *)
Fixpoint last_all (P : ascii -> bool) (r : regex) : bool :=
  match r with
  | OneOf items => forallb (fun c => implb (in_set items c) (P c)) all_chars
  | Seq r1 r2 => last_all P r2 && ((0 <? min_len r2) || last_all P r1)
  | Alt r1 r2 => last_all P r1 && last_all P r2
  | Opt r1 => last_all P r1
  | Star r1 => last_all P r1
  | Plus r1 => last_all P r1
  | Rep r1 _ _ => last_all P r1
  | WordB => true
  end.

Definition not_space (c : ascii) : bool := negb (is_space c).

(** ** Concatenating two texts *)

(** The pattern has no assertion: what it matches does not depend on the
    characters around the match. *)
Fixpoint assertion_free (r : regex) : bool :=
  match r with
  | OneOf _ => true
  | Seq r1 r2 => assertion_free r1 && assertion_free r2
  | Alt r1 r2 => assertion_free r1 && assertion_free r2
  | Opt r1 => assertion_free r1
  | Star r1 => assertion_free r1
  | Plus r1 => assertion_free r1
  | Rep r1 _ _ => assertion_free r1
  | WordB => false
  end.

(** The match has characters on both sides of position [b]. *)
Definition spans (b : nat) (m : match_obj) : bool :=
  (m_start m <? b) && (b <? m_end m).

(** No match that [r] finds in [t1 ++ t2] spans the place where the two
    texts are joined. *)
Definition no_match_spans (r : regex) (t1 t2 : text) : bool :=
  forallb (fun m => negb (spans (length t1) m)) (finditer r (t1 ++ t2)).


Definition patterns : list regex :=
  [email_pattern; url_pattern; phone_pattern; credit_card_pattern].

(** Two previous characters that no assertion of the pattern tells
    apart: the pattern has no assertion ([b]), or both are word
    characters or both are not. *)
Definition same_ctx (b : bool) (p p' : option ascii) : Prop :=
  b = true \/ is_word_opt p = is_word_opt p'.

(** The matcher does not tell such previous characters apart. *)
Definition blind (b : bool) (m : matcher) : Prop :=
  forall p p' s, same_ctx b p p' -> m p s = m p' s.

(** The ways of [m] to match in [s ++ t2] that end inside [s] are the
    ways of [m'] to match in [s], in the same order. *)
Definition local_at (t2 : text) (m m' : matcher) (s : text) : Prop :=
  forall prev,
    filter (fun n => n <=? length s) (m prev (s ++ t2)) = m' prev s.

(** The matcher never consumes more than there is. *)
Definition bounded (m : matcher) : Prop :=
  forall prev s n, In n (m prev s) -> n <= length s.

(** The ways of [m] to match that consume something. *)
Definition nonempty (m : matcher) : matcher :=
  fun prev s => filter (fun n => negb (n =? 0)) (m prev s).


(** ** What the characters of a match can be, and how many of a kind *)

(** Every character of the set satisfies [P]. *)
Definition set_within (P : ascii -> bool) (items : list citem) : bool :=
  forallb (fun c => implb (in_set items c) (P c)) all_chars.

(** No character of the set satisfies [P]. *)
Definition set_without (P : ascii -> bool) (items : list citem) : bool :=
  forallb (fun c => negb (in_set items c && P c)) all_chars.

(** Every set of the pattern holds only characters that satisfy [P]. *)
Fixpoint chars_all (P : ascii -> bool) (r : regex) : bool :=
  match r with
  | OneOf items => set_within P items
  | Seq r1 r2 => chars_all P r1 && chars_all P r2
  | Alt r1 r2 => chars_all P r1 && chars_all P r2
  | Opt r1 => chars_all P r1
  | Star r1 => chars_all P r1
  | Plus r1 => chars_all P r1
  | Rep r1 _ _ => chars_all P r1
  | WordB => true
  end.

(** A lower bound on the number of characters that satisfy [P] in what
    the pattern matches. *)
Fixpoint count_min (P : ascii -> bool) (r : regex) : nat :=
  match r with
  | OneOf items => if set_within P items then 1 else 0
  | Seq r1 r2 => count_min P r1 + count_min P r2
  | Alt r1 r2 => Nat.min (count_min P r1) (count_min P r2)
  | Opt _ => 0
  | Star _ => 0
  | Plus r1 => count_min P r1
  | Rep r1 lo _ => lo * count_min P r1
  | WordB => 0
  end.

(** An upper bound on that number, when there is one. *)
Fixpoint count_max (P : ascii -> bool) (r : regex) : option nat :=
  match r with
  | OneOf items => if set_without P items then Some 0 else Some 1
  | Seq r1 r2 =>
      match count_max P r1, count_max P r2 with
      | Some a, Some b => Some (a + b)
      | _, _ => None
      end
  | Alt r1 r2 =>
      match count_max P r1, count_max P r2 with
      | Some a, Some b => Some (Nat.max a b)
      | _, _ => None
      end
  | Opt r1 => count_max P r1
  | Star r1 =>
      match count_max P r1 with
      | Some 0 => Some 0
      | _ => None
      end
  | Plus r1 =>
      match count_max P r1 with
      | Some 0 => Some 0
      | _ => None
      end
  | Rep r1 _ hi =>
      match count_max P r1 with
      | Some a => Some (hi * a)
      | None => None
      end
  | WordB => Some 0
  end.

(** The number of characters of [s] that satisfy [P]. *)
Definition count (P : ascii -> bool) (s : text) : nat :=
  length (filter P s).

(** The reasons for which [validate_url] rejects. *)
Definition UrlRejected (url : text) : Prop :=
  (exists scheme,
      In scheme [txt "javascript:"; txt "data:"; txt "file:"; txt "about:"]
      /\ Starts scheme (lower url))
  \/ (exists bad,
         In bad [txt "<script"; txt "onerror"; txt "onload"]
         /\ Occurs bad (lower url))
  \/ In zero url.

(** A digit, a space or a hyphen, and not two of them at once. *)
Definition card_char (c : ascii) : bool :=
  xorb (is_digit c) (Ascii.eqb c " " || Ascii.eqb c "-").

(** Neither [<] in lower case nor the character of code 0. *)
Definition url_char (c : ascii) : bool :=
  negb (Ascii.eqb (lower_char c) "<") && negb (Ascii.eqb c zero).



Definition is_at (c : ascii) : bool := Ascii.eqb c "@".
Definition is_h (c : ascii) : bool := Ascii.eqb c "h".

(** Changing the case of a character does not make it equal to [a], nor
    different from it. *)
Definition caseless (a : ascii) : bool :=
  forallb (fun b => Bool.eqb (Ascii.eqb a (lower_char b)) (Ascii.eqb a b))
          all_chars.

(** ** The program [main] *)

(** SAMPLE_INPUT, from the line break behind its opening quotes to the
    line break before its closing quotes. *)
Definition SAMPLE_INPUT : text := txt "
CUSTOMER DATA REPORT - Jan 2026

Contact Information:
- Adit Bol: adit.bol@company.com (verified)
- Adau Dorcus: adau.dorcus@tech-solutions.co.uk
- Invalid: user@.com, test..email@example.com, @missing.com
- Suspicious: admin' OR '1'='1@example.com (SQL injection attempt)

Social Profiles & Web Links:
- Portfolio: https://www.johnsmith-portfolio.dev/projects
- Blog: http://tech-blog.io/articles?id=42&sort=date
- Github: https://github.com/user/repo/tree/main
- Invalid: htps://typo.com, javascript:alert('xss')
- Malicious: https://example.com<script>alert('xss')</script>

Phone Directory:
- Office Main: (555) 123-4567
- Cell 1: 555-123-4567
- Cell 2: 555.123.4567
- Intl: +1-555-123-4567
- With Ext: 555-123-4567 ext 201
- Invalid: 123-456, 111-111-1111 (repeated digits)

Payment Information (MASKED FOR SECURITY):
- Visa: 4532 1234 5678 9010
- Mastercard: 5412 1234 5678 9012
- American Express: 3782 822463 10005
- Invalid: 1234 5678 (too short), 9999-9999-9999-9999 (repeated)
- Spaces variant: 5412 1234 5678 9012
- Dash variant: 5412-1234-5678-9012

MALICIOUS/EDGE CASES:
- Email: test@example.com; DROP TABLE users;--
- URL: https://evil.com/callback?token=<script>alert(1)</script>
- Phone that looks like date: 2024-01-15 (should NOT match as phone)
- Card with special chars: 5412@1234-5678_9012
- Data injection: user+tag@example.com (valid variant)

END OF REPORT
".

(** What [main] can raise: what the engine raises, the [KeyError] of a
    dictionary that lacks the key, or what [print] raises when the
    standard output refuses the text: [UnicodeEncodeError] when its
    encoding has no code for a character, [OSError] when the write
    fails. *)
Inductive raised : Type :=
| Engine (e : exn)
| KeyError (key : string)
| PrintError.

(** A step of the program: from what has been printed so far, one entry
    for each call of [print], to what has been printed after it and to
    its value or the exception it raises. *)
Definition io (A : Type) : Type := list text -> list text * (A + raised).

Definition io_ret {A : Type} (a : A) : io A := fun out => (out, inl a).

Definition io_bind {A B : Type} (c : io A) (k : A -> io B) : io B :=
  fun out =>
    match c out with
    | (out', inl a) => k a out'
    | (out', inr e) => (out', inr e)
    end.

Notation "x <~ c ;; k" := (io_bind c (fun x => k))
  (at level 61, c at next level, right associativity).
Notation "c ;;; k" := (io_bind c (fun _ => k))
  (at level 61, right associativity).

Definition io_raise {A : Type} (e : raised) : io A := fun out => (out, inr e).

(** A call into the engine. *)
Definition call {A : Type} (o : outcome A) : io A :=
  match o with
  | Returns a => io_ret a
  | Raises e => io_raise (Engine e)
  end.

(** [results[key]] *)
Definition getitem (d : findings_by_key) (key : string)
  : io (list finding) :=
  match lookup key d with
  | Some v => io_ret v
  | None => io_raise (KeyError key)
  end.

Arguments getitem d key%_string.

(** [item['raw_format']] *)
Definition get_raw_format (item : finding) : io text :=
  match raw_format item with
  | Some r => io_ret r
  | None => io_raise (KeyError "raw_format")
  end.

(** A [for] loop of the program. *)
Fixpoint for_io {A : Type} (xs : list A) (body : A -> io unit) : io unit :=
  match xs with
  | [] => io_ret tt
  | x :: xs' => body x ;;; for_io xs' body
  end.

(** [str(n)] for a length. *)
Definition str (n : nat) : text :=
  txt (NilEmpty.string_of_uint (Nat.to_uint n)).

(** [item['status'] == 'valid'] *)
Definition is_valid (item : finding) : bool :=
  String.eqb (status item) "valid".

Definition newline : ascii := ascii_of_nat 10.
Definition quote : ascii := ascii_of_nat 34.
Definition backslash : ascii := ascii_of_nat 92.

(** *** [json.dumps(results, indent=2)] *)

Definition hex_digit (n : nat) : ascii :=
  if n <? 10 then ascii_of_nat (48 + n) else ascii_of_nat (87 + n).

(** A character inside a JSON string: the quote, the backslash and the
    characters outside [' '..'~'] are escaped. *)
Definition json_char (c : ascii) : text :=
  if Ascii.eqb c quote then [backslash; quote]
  else if Ascii.eqb c backslash then [backslash; backslash]
  else if code c =? 10 then backslash :: txt "n"
  else if code c =? 13 then backslash :: txt "r"
  else if code c =? 9 then backslash :: txt "t"
  else if code c =? 8 then backslash :: txt "b"
  else if code c =? 12 then backslash :: txt "f"
  else if between 32 126 c then [c]
  else backslash :: txt "u00"
       ++ [hex_digit (code c / 16); hex_digit (code c mod 16)].

Definition json_string (s : text) : text :=
  quote :: flat_map json_char s ++ [quote].

(** A line break and the indentation of a nesting depth. *)
Definition nl_indent (depth : nat) : text :=
  newline :: repeat " "%char (2 * depth).

Fixpoint join (sep : text) (parts : list text) : text :=
  match parts with
  | [] => []
  | [p] => p
  | p :: ps => p ++ sep ++ join sep ps
  end.

(** A dictionary at a nesting depth, from its keys and encoded values. *)
Definition json_object (depth : nat) (members : list (text * text)) : text :=
  match members with
  | [] => txt "{}"
  | _ =>
      txt "{" ++ nl_indent (S depth)
      ++ join (txt "," ++ nl_indent (S depth))
              (map (fun kv => json_string (fst kv) ++ txt ": " ++ snd kv)
                   members)
      ++ nl_indent depth ++ txt "}"
  end.

(** A list at a nesting depth, from its encoded items. *)
Definition json_array (depth : nat) (items : list text) : text :=
  match items with
  | [] => txt "[]"
  | _ =>
      txt "[" ++ nl_indent (S depth)
      ++ join (txt "," ++ nl_indent (S depth)) items
      ++ nl_indent depth ++ txt "]"
  end.

Definition json_finding (depth : nat) (f : finding) : text :=
  json_object depth
    ([(txt "type", json_string (txt (f_type f)));
      (txt "value", json_string (value f));
      (txt "status", json_string (txt (status f)))]
     ++ match raw_format f with
        | Some r => [(txt "raw_format", json_string r)]
        | None => []
        end).

Definition json_dumps (d : findings_by_key) : text :=
  json_object 0
    (map (fun kv => (txt (fst kv),
                     json_array 1 (map (json_finding 2) (snd kv))))
         d).

(** *** [main] *)

Section Stdout.

(** The standard output: whether it takes a text, after the texts that
    were printed before. *)
Variable accepts : list text -> text -> bool.

(** [print(s)]: the text is written when the standard output takes it,
    and [print] raises otherwise. *)
Definition print (s : text) : io unit :=
  fun out =>
    if accepts out s then (out ++ [s], inl tt) else (out, inr PrintError).

(** The body of [main], for the text that it gives to [extract_all]. *)
Definition main_body (input : text) : io unit :=
  print (times "=" 70) ;;;
  print (txt "DATA EXTRACTION & SECURE VALIDATION PROGRAM") ;;;
  print (times "=" 70) ;;;
  print [] ;;;
  results <~ call (extract_all input) ;;
  print (txt "EXTRACTION RESULTS") ;;;
  print (times "-" 70) ;;;
  print [] ;;;
  print (txt "EMAILS FOUND:") ;;;
  emails <~ getitem results "emails" ;;
  let valid_emails := filter is_valid emails in
  print (txt "  Valid: " ++ str (length valid_emails)) ;;;
  for_io valid_emails (fun item => print (txt "    + " ++ value item)) ;;;
  emails <~ getitem results "emails" ;;
  let invalid_emails := filter (fun item => negb (is_valid item)) emails in
  match invalid_emails with
  | [] => io_ret tt
  | _ =>
      print (txt "  Invalid/Rejected: " ++ str (length invalid_emails)) ;;;
      for_io invalid_emails
             (fun item => print (txt "    - " ++ value item ++ txt " - "
                                 ++ txt (status item)))
  end ;;;
  print [] ;;;
  print (txt "URLS FOUND:") ;;;
  urls <~ getitem results "urls" ;;
  let valid_urls := filter is_valid urls in
  print (txt "  Valid: " ++ str (length valid_urls)) ;;;
  for_io valid_urls (fun item => print (txt "    + " ++ value item)) ;;;
  urls <~ getitem results "urls" ;;
  let invalid_urls := filter (fun item => negb (is_valid item)) urls in
  match invalid_urls with
  | [] => io_ret tt
  | _ =>
      print (txt "  Invalid/Rejected: " ++ str (length invalid_urls)) ;;;
      for_io invalid_urls
             (fun item => print (txt "    - " ++ value item ++ txt " - "
                                 ++ txt (status item)))
  end ;;;
  print [] ;;;
  print (txt "PHONE NUMBERS FOUND:") ;;;
  phones <~ getitem results "phones" ;;
  let valid_phones := filter is_valid phones in
  print (txt "  Valid: " ++ str (length valid_phones)) ;;;
  for_io valid_phones (fun item => print (txt "    + " ++ value item)) ;;;
  phones <~ getitem results "phones" ;;
  let invalid_phones := filter (fun item => negb (is_valid item)) phones in
  match invalid_phones with
  | [] => io_ret tt
  | _ =>
      print (txt "  Invalid/Rejected: " ++ str (length invalid_phones)) ;;;
      for_io invalid_phones
             (fun item => print (txt "    - " ++ value item ++ txt " - "
                                 ++ txt (status item)))
  end ;;;
  print [] ;;;
  print (txt "CREDIT CARDS FOUND (MASKED FOR SECURITY):") ;;;
  cards <~ getitem results "credit_cards" ;;
  let valid_cards := filter is_valid cards in
  print (txt "  Valid: " ++ str (length valid_cards)) ;;;
  for_io valid_cards
         (fun item =>
            raw <~ get_raw_format item ;;
            print (txt "    + " ++ value item ++ txt " (format: " ++ raw
                   ++ txt ")")) ;;;
  cards <~ getitem results "credit_cards" ;;
  let invalid_cards := filter (fun item => negb (is_valid item)) cards in
  match invalid_cards with
  | [] => io_ret tt
  | _ =>
      print (txt "  Invalid/Rejected: " ++ str (length invalid_cards)) ;;;
      for_io invalid_cards
             (fun item => print (txt "    - " ++ value item ++ txt " - "
                                 ++ txt (status item)))
  end ;;;
  print [] ;;;
  print (newline :: txt "JSON OUTPUT:") ;;;
  print (json_dumps results).

(** [main] *)
Definition main : io unit := main_body SAMPLE_INPUT.

End Stdout.

(** The body of [main] on a standard output that takes every text. *)
Definition main_on (input : text) : io unit :=
  main_body (fun _ _ => true) input.

(** The standard output takes the lines one after the other. *)
Fixpoint accepted (accepts : list text -> text -> bool)
         (out lines : list text) : bool :=
  match lines with
  | [] => true
  | line :: rest => accepts out line && accepted accepts (out ++ [line]) rest
  end.

(** The program prints [lines] and returns [a], unless the standard
    output refuses one of the lines: then it raises at that line, after
    it has printed the lines before. *)
Definition prints {A : Type} (accepts : list text -> text -> bool)
           (c : io A) (lines : list text) (a : A) : Prop :=
  forall out,
    (accepted accepts out lines = true /\ c out = (out ++ lines, inl a))
    \/ (exists l line rest,
          lines = l ++ line :: rest
          /\ accepted accepts out l = true
          /\ accepts (out ++ l) line = false
          /\ c out = (out ++ l, inr PrintError)).

(** A text of characters below 128. *)
Definition is_ascii_text (s : text) : bool :=
  forallb (fun c => code c <? 128) s.

(** What is written to the standard output: every printed entry, each
    followed by a line break. *)
Definition stdout (out : list text) : text :=
  flat_map (fun s => s ++ [newline]) out.

(** *** What [main] prints, section by section *)

Definition valid_line (item : finding) : text :=
  txt "    + " ++ value item.

Definition invalid_line (item : finding) : text :=
  txt "    - " ++ value item ++ txt " - " ++ txt (status item).

Definition card_line (item : finding) (raw : text) : text :=
  txt "    + " ++ value item ++ txt " (format: " ++ raw ++ txt ")".

Definition raw_or_empty (item : finding) : text :=
  match raw_format item with
  | Some r => r
  | None => []
  end.

(** The lines for the rejected items of a section. *)
Definition rejected_lines (items : list finding) : list text :=
  match filter (fun item => negb (is_valid item)) items with
  | [] => []
  | l => (txt "  Invalid/Rejected: " ++ str (length l)) :: map invalid_line l
  end.

(** A section, from its title and the lines of its valid items. *)
Definition section_lines (title : text) (items : list finding)
           (line : finding -> text) : list text :=
  [title; txt "  Valid: " ++ str (length (filter is_valid items))]
  ++ map line (filter is_valid items)
  ++ rejected_lines items
  ++ [[]].

Definition report (input : text) : list text :=
  [times "=" 70; txt "DATA EXTRACTION & SECURE VALIDATION PROGRAM";
   times "=" 70; []; txt "EXTRACTION RESULTS"; times "-" 70; []]
  ++ section_lines (txt "EMAILS FOUND:")
       (map email_finding (findall email_pattern input)) valid_line
  ++ section_lines (txt "URLS FOUND:")
       (map url_finding (findall url_pattern input)) valid_line
  ++ section_lines (txt "PHONE NUMBERS FOUND:")
       (map phone_finding (findall phone_pattern input)) valid_line
  ++ section_lines (txt "CREDIT CARDS FOUND (MASKED FOR SECURITY):")
       (map card_finding (findall credit_card_pattern input))
       (fun item => card_line item (raw_or_empty item))
  ++ [newline :: txt "JSON OUTPUT:";
      json_dumps
        [("emails"%string,
          map email_finding (findall email_pattern input));
         ("urls"%string, map url_finding (findall url_pattern input));
         ("phones"%string,
          map phone_finding (findall phone_pattern input));
         ("credit_cards"%string,
          map card_finding (findall credit_card_pattern input))]].

(** A character of the set of the host, and one of the set of the path,
    of the URL pattern. *)
Definition url_host_char (c : ascii) : bool :=
  in_set [Cw; chr "."; chr "-"] c.

Definition url_path_char (c : ascii) : bool :=
  in_set [Cw; chr "."; chr "/"; chr "?"; chr "%"; chr "&"; chr "=";
          chr "+"; chr "-"] c.

(** The text goes on with a character of the path set. *)
Definition path_goes_on (post : text) : bool :=
  match post with
  | [] => false
  | c :: _ => url_path_char c
  end.

(** * Properties *)

(** ** Loops and outcomes *)

Lemma for_each_append (A : Type) (g : A -> finding)
      (body : A -> list finding -> outcome (list finding)) :
  (forall x st, body x st = Returns (st ++ [g x])) ->
  forall xs st, for_each xs body st = Returns (st ++ map g xs).
Proof.
  intros Hbody xs; induction xs as [|x xs IH]; intros st; simpl.
  - now rewrite app_nil_r.
  - rewrite Hbody; simpl. rewrite IH, <- app_assoc. reflexivity.
Qed.

Lemma validate_email_returns email :
  exists b, validate_email email = Returns b.
Proof.
  unfold validate_email.
  destruct (_ || _ || _); [now exists false|].
  destruct (unpack2 _) as [[l d]|[]]; [|now exists false].
  destruct (_ || _); [now exists false|].
  destruct (existsb _ _); eauto.
Qed.

Lemma validate_url_returns url : exists b, validate_url url = Returns b.
Proof.
  unfold validate_url.
  repeat (destruct (existsb _ _); [now exists false|]).
  destruct (contains_char _ _); eauto.
Qed.

Lemma validate_phone_returns phone :
  exists b, validate_phone phone = Returns b.
Proof.
  unfold validate_phone; cbv zeta.
  destruct (negb _); [now exists false|].
  destruct (_ =? _); eauto.
Qed.

Lemma validate_credit_card_returns card :
  exists b, validate_credit_card card = Returns b.
Proof.
  unfold validate_credit_card; cbv zeta.
  repeat (destruct (negb _); [now exists false|]).
  destruct (_ =? _); eauto.
Qed.

Lemma returned_true_spec o b : o = Returns b -> returned_true o = b.
Proof. intros ->; now destruct b. Qed.

Lemma extract_emails_eq t :
  extract_emails t = Returns (map email_finding (findall email_pattern t)).
Proof.
  unfold extract_emails; cbv zeta.
  rewrite for_each_append with (g := email_finding); [reflexivity|].
  intros x st. unfold email_finding.
  destruct (validate_email_returns x) as [b Hb]; rewrite Hb; simpl.
  now destruct b.
Qed.

Lemma extract_urls_eq t :
  extract_urls t = Returns (map url_finding (findall url_pattern t)).
Proof.
  unfold extract_urls; cbv zeta.
  rewrite for_each_append with (g := url_finding); [reflexivity|].
  intros x st. unfold url_finding.
  destruct (validate_url_returns x) as [b Hb]; rewrite Hb; simpl.
  now destruct b.
Qed.

Lemma extract_phone_numbers_eq t :
  extract_phone_numbers t
  = Returns (map phone_finding (findall phone_pattern t)).
Proof.
  unfold extract_phone_numbers; cbv zeta.
  rewrite for_each_append with (g := phone_finding); [reflexivity|].
  intros x st. unfold phone_finding.
  destruct (validate_phone_returns x) as [b Hb]; rewrite Hb; simpl.
  now destruct b.
Qed.

Lemma extract_credit_cards_eq t :
  extract_credit_cards t
  = Returns (map card_finding (findall credit_card_pattern t)).
Proof.
  unfold extract_credit_cards; cbv zeta.
  rewrite for_each_append with (g := card_finding); [reflexivity|].
  intros x st. unfold card_finding.
  destruct (validate_credit_card_returns x) as [b Hb]; rewrite Hb; simpl.
  now destruct b.
Qed.

Lemma extract_all_eq t :
  extract_all t
  = Returns [("emails"%string, map email_finding (findall email_pattern t));
             ("urls"%string, map url_finding (findall url_pattern t));
             ("phones"%string, map phone_finding (findall phone_pattern t));
             ("credit_cards"%string,
              map card_finding (findall credit_card_pattern t))].
Proof.
  unfold extract_all.
  rewrite extract_emails_eq, extract_urls_eq, extract_phone_numbers_eq,
    extract_credit_cards_eq.
  reflexivity.
Qed.

(** ** The string operations meet their specification *)

Lemma startswith_spec p : forall s, startswith p s = true <-> Starts p s.
Proof.
  induction p as [|a p IH]; intros s; simpl.
  - split; [intros _; now exists s|reflexivity].
  - destruct s as [|b s].
    + split; [discriminate|intros [post H]; discriminate].
    + rewrite andb_true_iff, Ascii.eqb_eq, IH. split.
      * intros [-> [post ->]]. now exists post.
      * intros [post H]. injection H as -> ->. split; [reflexivity|].
        now exists post.
Qed.

Lemma contains_spec sub : forall s, contains sub s = true <-> Occurs sub s.
Proof.
  induction s as [|c s IH]; simpl.
  - rewrite orb_false_r, startswith_spec. split.
    + intros [post H]. exists [], post. exact H.
    + intros [pre [post H]]. destruct pre; [now exists post|discriminate].
  - rewrite orb_true_iff, startswith_spec, IH. split.
    + intros [[post H]|[pre [post H]]].
      * exists [], post. exact H.
      * exists (c :: pre), post. simpl. now rewrite H.
    + intros [pre [post H]]. destruct pre as [|c' pre].
      * left. now exists post.
      * right. injection H as _ ->. now exists pre, post.
Qed.

Lemma endswith_spec p s : endswith p s = true <-> Ends p s.
Proof.
  unfold endswith. rewrite startswith_spec. split.
  - intros [post H]. exists (rev post).
    rewrite <- (rev_involutive s), H, rev_app_distr, rev_involutive.
    reflexivity.
  - intros [pre ->]. exists (rev pre). now rewrite rev_app_distr.
Qed.

Lemma split_not_nil sep s : split sep s <> [].
Proof.
  destruct s as [|c s]; simpl; [discriminate|].
  destruct (Ascii.eqb c sep); [discriminate|].
  destruct (split sep s); discriminate.
Qed.

Lemma split_one sep : forall s p,
  split sep s = [p] <-> s = p /\ ~ In sep s.
Proof.
  induction s as [|c s IH]; intros p; simpl.
  - split; [intros H; injection H as <-; tauto|intros [<- _]; reflexivity].
  - destruct (Ascii.eqb_spec c sep) as [->|Hne].
    + split.
      * intros H. injection H as _ H. now apply split_not_nil in H.
      * intros [_ H]. exfalso. apply H. now left.
    + destruct (split sep s) as [|q qs] eqn:E; [now apply split_not_nil in E|].
      split.
      * intros H. injection H as <- ->.
        destruct (proj1 (IH q) eq_refl) as [-> Hin].
        split; [reflexivity|]. intros [H|H]; [congruence|tauto].
      * intros [<- Hin]. assert (Hs : q :: qs = [s]).
        { apply IH. split; [reflexivity|]. intros H; apply Hin. now right. }
        injection Hs as -> ->. reflexivity.
Qed.

Lemma split_two sep : forall s l d,
  split sep s = [l; d]
  <-> s = l ++ sep :: d /\ ~ In sep l /\ ~ In sep d.
Proof.
  induction s as [|c s IH]; intros l d; simpl.
  - split; [discriminate|]. intros [H _]. now destruct l.
  - destruct (Ascii.eqb_spec c sep) as [->|Hne].
    + split.
      * intros H. injection H as <- H. apply split_one in H as [-> Hin].
        simpl. tauto.
      * intros [H [Hl Hd]]. destruct l as [|a l].
        -- injection H as ->. f_equal. apply split_one. tauto.
        -- injection H as <- _. exfalso. apply Hl. now left.
    + destruct (split sep s) as [|q qs] eqn:E; [now apply split_not_nil in E|].
      split.
      * intros H. injection H as <- ->.
        destruct (proj1 (IH q d) eq_refl) as [-> [Hq Hd]].
        simpl. split; [reflexivity|].
        split; [|assumption]. intros [H|H]; [congruence|tauto].
      * intros [H [Hl Hd]]. destruct l as [|a l].
        -- injection H as -> _. congruence.
        -- injection H as <- ->.
           assert (Hs : q :: qs = [l; d]).
           { apply IH. split; [reflexivity|]. split; [|assumption].
             intros H; apply Hl. now right. }
           injection Hs as -> ->. reflexivity.
Qed.

Lemma unpack2_split s l d :
  unpack2 (split "@" s) = Returns (l, d) <-> SplitsAt s l d.
Proof.
  unfold SplitsAt. rewrite <- split_two.
  destruct (split "@" s) as [|a [|b [|c ps]]]; simpl;
    split; intros H; try discriminate; congruence.
Qed.

Lemma unpack2_raises s :
  unpack2 (split "@" s) = Raises ValueError
  <-> ~ exists l d, SplitsAt s l d.
Proof.
  split.
  - intros H [l [d Hs]]. apply unpack2_split in Hs. congruence.
  - intros H. destruct (unpack2 (split "@" s)) as [[l d]|[]] eqn:E.
    + exfalso. apply H. exists l, d. now apply unpack2_split.
    + reflexivity.
Qed.

Lemma SplitsAt_unique s l d l' d' :
  SplitsAt s l d -> SplitsAt s l' d' -> l = l' /\ d = d'.
Proof.
  intros H H'. apply unpack2_split in H, H'. split; congruence.
Qed.

Lemma sub_non_digits_eq s : sub_non_digits s = digits_of s.
Proof.
  unfold sub_non_digits, digits_of.
  induction s as [|c s IH]; simpl; [reflexivity|].
  destruct (is_digit c); simpl; now rewrite IH.
Qed.

Lemma normalized_eq card : normalized card = delete_spaces_hyphens card.
Proof.
  unfold normalized, delete_spaces_hyphens, replace.
  induction card as [|c s IH]; simpl; [reflexivity|].
  destruct (Ascii.eqb_spec c " ") as [->|H1]; simpl; [exact IH|].
  destruct (Ascii.eqb_spec c "-") as [->|H2]; simpl; now rewrite IH.
Qed.

Lemma isdigit_spec s :
  isdigit s = true
  <-> s <> [] /\ Forall (fun c => isdigit_char c = true) s.
Proof.
  unfold isdigit. destruct s as [|c s].
  - split; [discriminate|intros [H _]; congruence].
  - rewrite forallb_forall, Forall_forall.
    split; [intros H; split; [discriminate|exact H]|tauto].
Qed.

Lemma set_of_one s :
  length (set_of s) = 1 <-> s <> [] /\ AllIdentical s.
Proof.
  unfold set_of, AllIdentical. split.
  - intros H. destruct (nodup ascii_dec s) as [|x [|y l]] eqn:E;
      try discriminate.
    assert (Hx : forall a, In a s -> a = x).
    { intros a Ha. apply (nodup_In ascii_dec) in Ha. rewrite E in Ha.
      destruct Ha as [Ha|[]]; congruence. }
    split.
    + intros ->. discriminate.
    + intros a b Ha Hb. rewrite (Hx a Ha), (Hx b Hb). reflexivity.
  - intros [Hne Hall].
    pose proof (NoDup_nodup ascii_dec s) as Hnd.
    destruct (nodup ascii_dec s) as [|x [|y l]] eqn:E.
    + destruct s as [|c s]; [congruence|].
      assert (Hin : In c (nodup ascii_dec (c :: s)))
        by (apply nodup_In; now left).
      rewrite E in Hin. destruct Hin.
    + reflexivity.
    + exfalso. inversion Hnd as [|? ? Hnx _]; subst. apply Hnx.
      assert (Hx : In x s) by (apply (nodup_In ascii_dec); rewrite E; now left).
      assert (Hy : In y s)
        by (apply (nodup_In ascii_dec); rewrite E; right; now left).
      rewrite (Hall x y Hx Hy). now left.
Qed.

(** ** The validators *)

Lemma validate_phone_true phone :
  validate_phone phone = Returns true <-> PhoneAccepted phone.
Proof.
  unfold validate_phone, PhoneAccepted; cbv zeta.
  rewrite sub_non_digits_eq.
  destruct (10 <=? length (digits_of phone)) eqn:E1; cbn [negb andb].
  2:{ apply Nat.leb_gt in E1. split; [discriminate|lia]. }
  apply Nat.leb_le in E1.
  destruct (length (digits_of phone) <=? 15) eqn:E2; cbn [negb andb].
  2:{ apply Nat.leb_gt in E2. split; [discriminate|lia]. }
  apply Nat.leb_le in E2.
  destruct (length (set_of (digits_of phone)) =? 1) eqn:E3.
  - apply Nat.eqb_eq, set_of_one in E3 as [_ Hall].
    split; [discriminate|tauto].
  - apply Nat.eqb_neq in E3. split; [intros _|intros _; reflexivity].
    split; [lia|]. intros Hall. apply E3, set_of_one. split; [|exact Hall].
    intros Hnil. rewrite Hnil in E1. simpl in E1; lia.
Qed.

Lemma validate_credit_card_true card :
  validate_credit_card card = Returns true <-> CardAccepted card.
Proof.
  unfold validate_credit_card, CardAccepted; cbv zeta.
  fold (normalized card). rewrite normalized_eq.
  set (clean := delete_spaces_hyphens card).
  destruct (isdigit clean) eqn:E0; cbn [negb andb].
  2:{ split; [discriminate|]. intros [Hd [Hlen _]].
      assert (isdigit clean = true); [|congruence].
      apply isdigit_spec. split; [|exact Hd].
      intros Hnil. rewrite Hnil in Hlen. simpl in Hlen; lia. }
  apply isdigit_spec in E0 as [Hne Hd].
  destruct (13 <=? length clean) eqn:E1; cbn [negb andb].
  2:{ apply Nat.leb_gt in E1. split; [discriminate|lia]. }
  apply Nat.leb_le in E1.
  destruct (length clean <=? 19) eqn:E2; cbn [negb andb].
  2:{ apply Nat.leb_gt in E2. split; [discriminate|lia]. }
  apply Nat.leb_le in E2.
  destruct (length (set_of clean) =? 1) eqn:E3.
  - apply Nat.eqb_eq, set_of_one in E3 as [_ Hall].
    split; [discriminate|tauto].
  - apply Nat.eqb_neq in E3. split; [intros _|intros _; reflexivity].
    repeat split; try assumption; try lia.
    intros Hall. apply E3, set_of_one. tauto.
Qed.

Lemma returns_false_iff (o : outcome bool) (P : Prop) :
  (exists b, o = Returns b) ->
  (o = Returns true <-> P) -> (o = Returns false <-> ~ P).
Proof.
  intros [[|] ->] [H1 H2]; split; intros H;
    try discriminate; try reflexivity.
  - exfalso. now apply H, H1.
  - intros HP. now apply H2 in HP.
Qed.

(** C6.  [validate_phone] returns [True] exactly when the digits left
    after deleting every non-digit character number between 10 and 15 and
    are not all identical, and [False] otherwise; the candidate
    ['111-111-1111'] is reported invalid and ['(555) 123-4567'] valid,
    with 10 digits after normalization. *)
Theorem validate_phone_exact :
  (forall phone,
      (validate_phone phone = Returns true <-> PhoneAccepted phone)
      /\ (validate_phone phone = Returns false <-> ~ PhoneAccepted phone))
  /\ extract_phone_numbers (txt "111-111-1111")
     = Returns [MkFinding "phone" (txt "111-111-1111") "invalid" None]
  /\ extract_phone_numbers (txt "(555) 123-4567")
     = Returns [MkFinding "phone" (txt "(555) 123-4567") "valid" None]
  /\ length (sub_non_digits (txt "(555) 123-4567")) = 10.
Proof.
  split; [|repeat split; vm_compute; reflexivity].
  intros phone. split; [apply validate_phone_true|].
  apply returns_false_iff;
    [apply validate_phone_returns|apply validate_phone_true].
Qed.


Lemma validate_email_false email :
  validate_email email = Returns false <-> EmailRejected email.
Proof.
  unfold validate_email, EmailRejected.
  destruct (contains (txt "..") email) eqn:E1; cbn [orb].
  { apply contains_spec in E1. tauto. }
  destruct (startswith (txt ".") email) eqn:E2; cbn [orb].
  { apply startswith_spec in E2. tauto. }
  destruct (endswith (txt ".") email) eqn:E3.
  { apply endswith_spec in E3. tauto. }
  assert (N1 : ~ Occurs (txt "..") email)
    by (rewrite <- contains_spec; congruence).
  assert (N2 : ~ Starts (txt ".") email)
    by (rewrite <- startswith_spec; congruence).
  assert (N3 : ~ Ends (txt ".") email)
    by (rewrite <- endswith_spec; congruence).
  destruct (unpack2 (split "@" email)) as [[l d]|[]] eqn:E4.
  2:{ apply unpack2_raises in E4. tauto. }
  apply unpack2_split in E4.
  destruct ((64 <? length l) || (255 <? length d)) eqn:E5.
  { apply orb_true_iff in E5. rewrite !Nat.ltb_lt in E5.
    split; [intros _|reflexivity].
    do 4 right. left. exists l, d. tauto. }
  apply orb_false_iff in E5. rewrite !Nat.ltb_ge in E5.
  destruct (existsb _ bad_stuff) eqn:E6.
  { apply existsb_exists in E6 as [bad [Hin Hc]]. apply contains_spec in Hc.
    split; [intros _|reflexivity].
    do 5 right. exists bad. split; assumption. }
  split; [discriminate|]. intros H. exfalso.
  destruct H as [H|[H|[H|[H|[H|H]]]]]; try tauto.
  - apply H. exists l, d. exact E4.
  - destruct H as [l' [d' [Hs Hlen]]].
    destruct (SplitsAt_unique E4 Hs) as [<- <-]. lia.
  - destruct H as [bad [Hin Hc]].
    assert (Hex : existsb (fun bad => contains bad (lower email)) bad_stuff
                  = true); [|congruence].
    apply existsb_exists. exists bad. split; [exact Hin|].
    now apply contains_spec.
Qed.

Lemma returns_true_iff (o : outcome bool) (P : Prop) :
  (exists b, o = Returns b) ->
  (o = Returns false <-> P) -> (o = Returns true <-> ~ P).
Proof.
  intros [[|] ->] [H1 H2]; split; intros H;
    try discriminate; try reflexivity.
  - intros HP. now apply H2 in HP.
  - exfalso. now apply H, H1.
Qed.


(** ** Masking *)

Lemma times_length c n : length (times c n) = Z.to_nat n.
Proof. unfold times. apply repeat_length. Qed.

Lemma masked_eq clean :
  masked clean = repeat "*"%char (length clean - 4) ++ last_chars 4 clean.
Proof.
  unfold masked, times, len. do 2 f_equal. lia.
Qed.

Lemma last_chars_length k s : length (last_chars k s) = Nat.min k (length s).
Proof. unfold last_chars. rewrite length_skipn. lia. Qed.

Lemma masked_length clean : length (masked clean) = length clean.
Proof.
  rewrite masked_eq, length_app, repeat_length, last_chars_length. lia.
Qed.

Lemma masked_last clean :
  last_chars 4 (masked clean) = last_chars 4 clean.
Proof.
  unfold last_chars at 1. rewrite masked_length, masked_eq.
  rewrite skipn_app, repeat_length, Nat.sub_diag, skipn_all2, skipn_O;
    [reflexivity|].
  rewrite repeat_length. lia.
Qed.

Lemma masked_stars clean i :
  i < length clean - 4 -> nth_error (masked clean) i = Some "*"%char.
Proof.
  intros Hi. rewrite masked_eq, nth_error_app1 by (rewrite repeat_length; lia).
  now apply nth_error_repeat.
Qed.

Lemma last_chars_Forall (P : ascii -> Prop) k s :
  Forall P s -> Forall P (last_chars k s).
Proof.
  unfold last_chars. intros H.
  rewrite <- (firstn_skipn (length s - k) s) in H.
  now apply Forall_app in H.
Qed.

Lemma card_finding_valid card :
  status (card_finding card) = "valid"%string ->
  validate_credit_card card = Returns true
  /\ card_finding card
     = MkFinding "credit_card" (masked (normalized card)) "valid" (Some card).
Proof.
  unfold card_finding.
  destruct (validate_credit_card_returns card) as [[|] Hb]; rewrite Hb; simpl.
  - intros _. split; reflexivity.
  - discriminate.
Qed.


(** C9.  [extract_credit_cards] masks a candidate only when
    [validate_credit_card] has returned [True] for it; the string that is
    masked then has between 13 and 19 characters, so it is never shorter
    than 4.  A candidate for which the validator returned [False] is
    reported unmasked. *)
Theorem mask_only_validated t fs :
  extract_credit_cards t = Returns fs ->
  Forall2
    (fun card f =>
       (validate_credit_card card = Returns true
        /\ 13 <= length (normalized card) <= 19
        /\ 4 <= length (normalized card)
        /\ (0 <= len (normalized card) - 4)%Z
        /\ length (last_chars 4 (normalized card)) = 4
        /\ f = MkFinding "credit_card"
                         (times "*" (len (normalized card) - 4)
                          ++ last_chars 4 (normalized card))
                         "valid" (Some card))
       \/ (validate_credit_card card = Returns false
           /\ f = MkFinding "credit_card" card "invalid" None))
    (findall credit_card_pattern t) fs.
Proof.
  rewrite extract_credit_cards_eq. intros Hfs. injection Hfs as <-.
  induction (findall credit_card_pattern t) as [|card cards IH];
    simpl; constructor; [|exact IH].
  unfold card_finding.
  destruct (validate_credit_card_returns card) as [[|] Hb]; rewrite Hb; simpl.
  - left. pose proof Hb as Hacc.
    apply validate_credit_card_true in Hacc as [_ [Hlen _]].
    rewrite <- normalized_eq in Hlen.
    split; [reflexivity|]. split; [exact Hlen|]. split; [lia|].
    split; [unfold len; lia|].
    split; [rewrite last_chars_length; lia|reflexivity].
  - right. split; reflexivity.
Qed.

Lemma mask_only_validated_witness :
  Forall2
    (fun card f =>
       (validate_credit_card card = Returns true
        /\ 13 <= length (normalized card) <= 19
        /\ 4 <= length (normalized card)
        /\ (0 <= len (normalized card) - 4)%Z
        /\ length (last_chars 4 (normalized card)) = 4
        /\ f = MkFinding "credit_card"
                         (times "*" (len (normalized card) - 4)
                          ++ last_chars 4 (normalized card))
                         "valid" (Some card))
       \/ (validate_credit_card card = Returns false
           /\ f = MkFinding "credit_card" card "invalid" None))
    (findall credit_card_pattern
             (txt "5412-1234-5678-9012, 9999-9999-9999-9999"))
    [MkFinding "credit_card" (txt "************9012") "valid"
               (Some (txt "5412-1234-5678-9012"));
     MkFinding "credit_card" (txt "9999-9999-9999-9999") "invalid" None].
Proof.
  apply (@mask_only_validated
           (txt "5412-1234-5678-9012, 9999-9999-9999-9999")).
  vm_compute. reflexivity.
Defined.

(** ** The matcher reports only matches of the pattern *)

Lemma in_then_ m1 m2 prev s n :
  In n (then_ m1 m2 prev s)
  <-> exists n1 n2,
        n = n1 + n2 /\ In n1 (m1 prev s)
        /\ In n2 (m2 (last_opt prev (firstn n1 s)) (skipn n1 s)).
Proof.
  unfold then_. rewrite in_flat_map. split.
  - intros [n1 [H1 H2]]. apply in_map_iff in H2 as [n2 [<- H2]].
    now exists n1, n2.
  - intros [n1 [n2 [-> [H1 H2]]]]. exists n1. split; [exact H1|].
    apply in_map_iff. now exists n2.
Qed.

Lemma firstn_plus (A : Type) (n1 n2 : nat) (s : list A) :
  firstn (n1 + n2) s = firstn n1 s ++ firstn n2 (skipn n1 s).
Proof.
  revert s; induction n1 as [|n1 IH]; intros s; simpl; [reflexivity|].
  destruct s as [|a s]; simpl.
  - now rewrite firstn_nil.
  - now rewrite IH.
Qed.

Lemma skipn_plus (A : Type) (n1 n2 : nat) (s : list A) :
  skipn (n1 + n2) s = skipn n2 (skipn n1 s).
Proof. rewrite skipn_skipn. f_equal. lia. Qed.

Lemma then_sound m1 m2 R1 R2 :
  sound m1 R1 -> sound m2 R2 ->
  forall prev s n,
    In n (then_ m1 m2 prev s) ->
    n <= length s
    /\ exists w1 w2,
         firstn n s = w1 ++ w2
         /\ R1 prev w1 (w2 ++ skipn n s)
         /\ R2 (last_opt prev w1) w2 (skipn n s).
Proof.
  intros H1 H2 prev s n Hin.
  apply in_then_ in Hin as [n1 [n2 [-> [Hn1 Hn2]]]].
  apply H1 in Hn1 as [Hl1 HR1]. apply H2 in Hn2 as [Hl2 HR2].
  rewrite length_skipn in Hl2. split; [lia|].
  exists (firstn n1 s), (firstn n2 (skipn n1 s)).
  rewrite firstn_plus, skipn_plus, firstn_skipn. tauto.
Qed.

Lemma star_sound m r :
  sound m (matches r) ->
  forall fuel, sound (star fuel m) (matches (Star r)).
Proof.
  intros Hm fuel; induction fuel as [|fuel IH]; intros prev s n; simpl.
  - intros [<-|[]]. split; [lia|]. simpl. apply M_StarNil.
  - rewrite in_app_iff. intros [Hin|[<-|[]]].
    2:{ split; [lia|]. simpl. apply M_StarNil. }
    assert (Hin' : In n (then_ m (star fuel m) prev s)).
    { unfold then_. apply in_flat_map in Hin as [n1 [H1 H2]].
      apply in_flat_map. exists n1. split; [exact H1|].
      now destruct (n1 =? 0). }
    apply (then_sound Hm IH) in Hin' as [Hl [w1 [w2 [-> [HR1 HR2]]]]].
    split; [exact Hl|]. now apply M_StarCons.
Qed.

Lemma rep_sound m r :
  sound m (matches r) ->
  forall hi lo, sound (rep m lo hi) (matches (Rep r lo hi)).
Proof.
  intros Hm hi; induction hi as [|hi IH]; intros lo prev s n; simpl.
  - destruct lo; simpl; [|intros []].
    intros [<-|[]]. split; [lia|]. simpl. apply M_RepNil.
  - rewrite in_app_iff. intros [Hin|Hin].
    + apply (then_sound Hm (IH (lo - 1)))
        in Hin as [Hl [w1 [w2 [-> [HR1 HR2]]]]].
      split; [exact Hl|]. now apply M_RepCons.
    + destruct lo; simpl in Hin; [|destruct Hin].
      destruct Hin as [<-|[]]. split; [lia|]. simpl. apply M_RepNil.
Qed.

Lemma ends_sound r : sound (ends r) (matches r).
Proof.
  induction r as [items|r1 IH1 r2 IH2|r1 IH1 r2 IH2|r IH|r IH|r IH
                  |r IH lo hi|];
    intros prev s n; simpl.
  - destruct s as [|c s]; [intros []|].
    destruct (in_set items c) eqn:E; [|intros []].
    intros [<-|[]]. simpl. split; [lia|]. now constructor.
  - intros Hin.
    apply (then_sound IH1 IH2) in Hin as [Hl [w1 [w2 [-> [HR1 HR2]]]]].
    split; [exact Hl|]. now apply M_Seq.
  - rewrite in_app_iff. intros [Hin|Hin].
    + apply IH1 in Hin as [Hl HR]. split; [exact Hl|]. now apply M_AltL.
    + apply IH2 in Hin as [Hl HR]. split; [exact Hl|]. now apply M_AltR.
  - rewrite in_app_iff. intros [Hin|[<-|[]]].
    + apply IH in Hin as [Hl HR]. split; [exact Hl|]. now apply M_OptSome.
    + split; [lia|]. simpl. apply M_OptNone.
  - apply (star_sound IH).
  - intros Hin.
    apply (then_sound IH (star_sound IH (length s)))
      in Hin as [Hl [w1 [w2 [-> [HR1 HR2]]]]].
    split; [exact Hl|]. now apply M_Plus.
  - apply (rep_sound IH).
  - destruct (at_boundary prev s) eqn:E; [|intros []].
    intros [<-|[]]. simpl. split; [lia|]. now constructor.
Qed.

Lemma last_opt_app prev w1 w2 :
  last_opt prev (w1 ++ w2) = last_opt (last_opt prev w1) w2.
Proof. apply fold_left_app. Qed.

Lemma last_opt_snoc prev w c : last_opt prev (w ++ [c]) = Some c.
Proof. now rewrite last_opt_app. Qed.

(** Every reported match is a piece of the text that the pattern matches
    where it stands. *)
Lemma scan_sound r : forall s pre skip m,
  In m (scan r (last_opt None pre) s (length pre) skip) ->
  exists post,
    pre ++ s = firstn (m_start m) (pre ++ s) ++ m_text m ++ post
    /\ length pre <= m_start m
    /\ m_end m <= length (pre ++ s)
    /\ matches r (last_opt None (firstn (m_start m) (pre ++ s)))
               (m_text m) post.
Proof.
  induction s as [|c s IH]; intros pre skip m; simpl.
  - destruct skip; [|intros []].
    destruct (ends r (last_opt None pre) []) as [|n l] eqn:E; [intros []|].
    intros [<-|[]]. unfold m_end. simpl.
    assert (Hn : In n (ends r (last_opt None pre) [])) by (rewrite E; now left).
    apply ends_sound in Hn as [Hl HR]. simpl in Hl.
    assert (n = 0) by lia; subst n. simpl in HR.
    exists []. rewrite !app_nil_r, firstn_all. repeat split; try lia.
    exact HR.
  - assert (Hnext : forall k,
               In m (scan r (Some c) s (S (length pre)) k) ->
               exists post,
                 pre ++ c :: s
                 = firstn (m_start m) (pre ++ c :: s) ++ m_text m ++ post
                 /\ length pre <= m_start m
                 /\ m_end m <= length (pre ++ c :: s)
                 /\ matches r (last_opt None
                                        (firstn (m_start m) (pre ++ c :: s)))
                            (m_text m) post).
    { intros k Hin.
      specialize (IH (pre ++ [c]) k m).
      rewrite last_opt_snoc, length_app, Nat.add_1_r, <- app_assoc in IH.
      simpl in IH. destruct (IH Hin) as [post [H1 [H2 [H3 H4]]]].
      exists post. repeat split; try assumption. lia. }
    destruct skip as [|k]; [|apply Hnext].
    destruct (ends r (last_opt None pre) (c :: s)) as [|n l] eqn:E;
      [apply Hnext|].
    intros [<-|Hin]; [|now apply Hnext in Hin].
    assert (Hn : In n (ends r (last_opt None pre) (c :: s)))
      by (rewrite E; now left).
    apply ends_sound in Hn as [Hl HR].
    unfold m_end. cbn [m_start m_text].
    exists (skipn n (c :: s)).
    rewrite firstn_app, Nat.sub_diag, firstn_all, firstn_O, app_nil_r.
    rewrite firstn_skipn. repeat split; try lia; [|exact HR].
    rewrite length_app, length_firstn. lia.
Qed.

Lemma finditer_sound r t m :
  In m (finditer r t) ->
  exists post,
    t = firstn (m_start m) t ++ m_text m ++ post
    /\ m_end m <= length t
    /\ matches r (last_opt None (firstn (m_start m) t)) (m_text m) post.
Proof.
  intros Hin. destruct (@scan_sound r t [] 0 m Hin) as [post [H1 [_ [H2 H3]]]].
  exists post. simpl in *. tauto.
Qed.

(** ** Lengths, first and last characters of matches *)

Lemma matches_min_len r prev w rest :
  matches r prev w rest -> min_len r <= length w.
Proof.
  induction 1; simpl in *; rewrite ?length_app; try lia.
  destruct lo; simpl in *; [lia|].
  rewrite Nat.sub_0_r in *. lia.
Qed.

Lemma in_all_chars c : In c all_chars.
Proof.
  unfold all_chars. apply in_map_iff. exists (nat_of_ascii c).
  split; [apply ascii_nat_embedding|].
  apply in_seq. pose proof (nat_ascii_bounded c). lia.
Qed.

Lemma set_all P items c :
  forallb (fun c => implb (in_set items c) (P c)) all_chars = true ->
  in_set items c = true -> P c = true.
Proof.
  intros H Hin. rewrite forallb_forall in H.
  specialize (H c (in_all_chars c)). now rewrite Hin in H.
Qed.

Lemma matches_first P r prev w rest :
  matches r prev w rest ->
  first_all P r = true ->
  forall c w', w = c :: w' -> P c = true.
Proof.
  induction 1 as [items c0 prev rest Hin
                 |r1 r2 prev w1 w2 rest H1 IH1 H2 IH2
                 |r1 r2 prev w rest H1 IH1|r1 r2 prev w rest H1 IH1
                 |r prev w rest H1 IH1|r prev rest|r prev rest
                 |r prev w1 w2 rest H1 IH1 H2 IH2
                 |r prev w1 w2 rest H1 IH1 H2 IH2
                 |r hi prev rest
                 |r lo hi prev w1 w2 rest H1 IH1 H2 IH2
                 |prev rest Hb];
    simpl; intros HP c w' Hw; try discriminate.
  - injection Hw as <- _. exact (set_all _ _ _ HP Hin).
  - apply andb_true_iff in HP as [HP1 HP2].
    destruct w1 as [|a w1].
    + apply matches_min_len in H1. simpl in H1.
      destruct (0 <? min_len r1) eqn:E; [apply Nat.ltb_lt in E; lia|].
      simpl in HP2. now apply (IH2 HP2 c w').
    + injection Hw as <- _. now apply (IH1 HP1 a w1).
  - apply andb_true_iff in HP as [HP1 HP2]. now apply (IH1 HP1 c w').
  - apply andb_true_iff in HP as [HP1 HP2]. now apply (IH1 HP2 c w').
  - now apply (IH1 HP c w').
  - destruct w1 as [|a w1]; [now apply (IH2 HP c w')|].
    injection Hw as <- _. now apply (IH1 HP a w1).
  - destruct w1 as [|a w1]; [now apply (IH2 HP c w')|].
    injection Hw as <- _. now apply (IH1 HP a w1).
  - destruct w1 as [|a w1]; [now apply (IH2 HP c w')|].
    injection Hw as <- _. now apply (IH1 HP a w1).
Qed.

Lemma matches_last P r prev w rest :
  matches r prev w rest ->
  last_all P r = true ->
  forall c w', w = w' ++ [c] -> P c = true.
Proof.
  assert (Hsplit : forall (w1 w2 w' : text) c,
             w1 ++ w2 = w' ++ [c] ->
             (w2 = [] /\ w1 = w' ++ [c])
             \/ exists w2', w2 = w2' ++ [c]).
  { intros w1 w2 w' c Hw. destruct w2 as [|a w2].
    - left. now rewrite app_nil_r in Hw.
    - right. destruct (@exists_last _ (a :: w2)) as [w2' [d E]];
        [discriminate|].
      rewrite E, app_assoc in Hw. apply app_inj_tail in Hw as [_ ->].
      now exists w2'. }
  induction 1 as [items c0 prev rest Hin
                 |r1 r2 prev w1 w2 rest H1 IH1 H2 IH2
                 |r1 r2 prev w rest H1 IH1|r1 r2 prev w rest H1 IH1
                 |r prev w rest H1 IH1|r prev rest|r prev rest
                 |r prev w1 w2 rest H1 IH1 H2 IH2
                 |r prev w1 w2 rest H1 IH1 H2 IH2
                 |r hi prev rest
                 |r lo hi prev w1 w2 rest H1 IH1 H2 IH2
                 |prev rest Hb];
    simpl; intros HP c w' Hw; try (now destruct w').
  - destruct w' as [|a [|b w']]; try discriminate.
    injection Hw as <-. exact (set_all _ _ _ HP Hin).
  - apply andb_true_iff in HP as [HP2 HP1].
    destruct (Hsplit _ _ _ _ Hw) as [[-> Hw1]|[w2' ->]].
    + apply matches_min_len in H2. simpl in H2.
      destruct (0 <? min_len r2) eqn:E; [apply Nat.ltb_lt in E; lia|].
      simpl in HP1. now apply (IH1 HP1 c w').
    + now apply (IH2 HP2 c w2').
  - apply andb_true_iff in HP as [HP1 HP2]. now apply (IH1 HP1 c w').
  - apply andb_true_iff in HP as [HP1 HP2]. now apply (IH1 HP2 c w').
  - now apply (IH1 HP c w').
  - destruct (Hsplit _ _ _ _ Hw) as [[-> Hw1]|[w2' ->]];
      [now apply (IH1 HP c w')|now apply (IH2 HP c w2')].
  - destruct (Hsplit _ _ _ _ Hw) as [[-> Hw1]|[w2' ->]];
      [now apply (IH1 HP c w')|now apply (IH2 HP c w2')].
  - destruct (Hsplit _ _ _ _ Hw) as [[-> Hw1]|[w2' ->]];
      [now apply (IH1 HP c w')|now apply (IH2 HP c w2')].
Qed.

Lemma strip_id w :
  (forall c w', w = c :: w' -> is_space c = false) ->
  (forall c w', w = w' ++ [c] -> is_space c = false) ->
  strip w = w.
Proof.
  intros Hfirst Hlast. unfold strip. destruct w as [|c w]; [reflexivity|].
  simpl lstrip at 2. rewrite (Hfirst c w eq_refl).
  destruct (@exists_last _ (c :: w)) as [w' [d E]]; [discriminate|].
  rewrite E, rev_app_distr. simpl.
  rewrite (Hlast d w' E). change (d :: rev w') with (rev [d] ++ rev w').
  now rewrite <- rev_app_distr, rev_involutive.
Qed.

Lemma phone_match_strip t phone :
  In phone (findall phone_pattern t) -> strip phone = phone.
Proof.
  unfold findall. intros Hin. apply in_map_iff in Hin as [m [<- Hin]].
  apply finditer_sound in Hin as [post [_ [_ HM]]].
  apply strip_id; intros c w' Hw.
  - apply (matches_first not_space HM) in Hw;
      [|vm_compute; reflexivity].
    unfold not_space in Hw. now destruct (is_space c).
  - apply (matches_last not_space HM) in Hw;
      [|vm_compute; reflexivity].
    unfold not_space in Hw. now destruct (is_space c).
Qed.

Lemma match_is_substring r t m :
  In m (finditer r t) ->
  m_text m = firstn (length (m_text m)) (skipn (m_start m) t).
Proof.
  intros Hin. apply finditer_sound in Hin as [post [Ht _]].
  rewrite <- (firstn_skipn (m_start m) t) in Ht at 1.
  apply app_inv_head in Ht. rewrite Ht.
  rewrite firstn_app, Nat.sub_diag, firstn_all, firstn_O, app_nil_r.
  reflexivity.
Qed.

(** C8.  The findings of the emails, urls and phones categories carry as
    their value, in order, the matches of the category's pattern, each of
    which is the piece of the text found at its position; [strip] leaves
    every phone match as it is. *)
Theorem values_are_matches t :
  (exists fs, extract_emails t = Returns fs
              /\ map value fs = findall email_pattern t)
  /\ (exists fs, extract_urls t = Returns fs
                 /\ map value fs = findall url_pattern t)
  /\ (exists fs, extract_phone_numbers t = Returns fs
                 /\ map value fs = findall phone_pattern t)
  /\ Forall (fun phone => strip phone = phone) (findall phone_pattern t)
  /\ Forall (fun m => m_text m
                      = firstn (length (m_text m)) (skipn (m_start m) t))
            (finditer email_pattern t ++ finditer url_pattern t
             ++ finditer phone_pattern t).
Proof.
  assert (Hstrip : Forall (fun phone => strip phone = phone)
                          (findall phone_pattern t)).
  { apply Forall_forall. intros phone. apply phone_match_strip. }
  repeat split.
  - rewrite extract_emails_eq. eexists. split; [reflexivity|].
    rewrite map_map. apply map_id.
  - rewrite extract_urls_eq. eexists. split; [reflexivity|].
    rewrite map_map. apply map_id.
  - rewrite extract_phone_numbers_eq. eexists. split; [reflexivity|].
    rewrite map_map. unfold phone_finding. cbn [value].
    induction Hstrip as [|x l Hx _ IH]; simpl; [reflexivity|].
    now rewrite Hx, IH.
  - exact Hstrip.
  - rewrite !Forall_app. repeat split; apply Forall_forall; intros m;
      apply match_is_substring.
Qed.

(** ** Totality *)

Lemma classified_map (validate : text -> outcome bool) (g : text -> finding)
      (l : list text) :
  (forall x, exists b, validate x = Returns b /\ status (g x) = label b) ->
  Forall2 (Classified validate) l (map g l).
Proof.
  intros H. induction l as [|x l IH]; simpl; constructor; [|exact IH].
  destruct (H x) as [[|] [Hb Hs]]; [left|right]; split; assumption.
Qed.

(** C4.  On every text each validator returns a Boolean, each extractor
    returns a list of findings and [extract_all] returns its dictionary
    of four lists; nothing is raised.  Every candidate is reported, as
    valid when its validator returned [True] and as invalid when it
    returned [False]; in particular the [ValueError] of a failed
    unpacking in [validate_email] is turned into [False]. *)
Theorem engine_is_total s :
  (exists b, validate_email s = Returns b)
  /\ (exists b, validate_url s = Returns b)
  /\ (exists b, validate_phone s = Returns b)
  /\ (exists b, validate_credit_card s = Returns b)
  /\ (exists fs, extract_emails s = Returns fs
                 /\ Forall2 (Classified validate_email)
                            (findall email_pattern s) fs)
  /\ (exists fs, extract_urls s = Returns fs
                 /\ Forall2 (Classified validate_url)
                            (findall url_pattern s) fs)
  /\ (exists fs, extract_phone_numbers s = Returns fs
                 /\ Forall2 (Classified validate_phone)
                            (findall phone_pattern s) fs)
  /\ (exists fs, extract_credit_cards s = Returns fs
                 /\ Forall2 (Classified validate_credit_card)
                            (findall credit_card_pattern s) fs)
  /\ (exists emails urls phones cards,
         extract_emails s = Returns emails
         /\ extract_urls s = Returns urls
         /\ extract_phone_numbers s = Returns phones
         /\ extract_credit_cards s = Returns cards
         /\ extract_all s
            = Returns [("emails"%string, emails); ("urls"%string, urls);
                       ("phones"%string, phones);
                       ("credit_cards"%string, cards)])
  /\ (unpack2 (split "@" s) = Raises ValueError
      <-> ~ exists local domain, SplitsAt s local domain)
  /\ ((exists local domain, SplitsAt s local domain)
      \/ validate_email s = Returns false).
Proof.
  split; [apply validate_email_returns|].
  split; [apply validate_url_returns|].
  split; [apply validate_phone_returns|].
  split; [apply validate_credit_card_returns|].
  split.
  { rewrite extract_emails_eq. eexists. split; [reflexivity|].
    apply classified_map. intros x.
    destruct (validate_email_returns x) as [b Hb]. exists b.
    split; [exact Hb|]. unfold email_finding. cbn [status].
    now rewrite (returned_true_spec Hb). }
  split.
  { rewrite extract_urls_eq. eexists. split; [reflexivity|].
    apply classified_map. intros x.
    destruct (validate_url_returns x) as [b Hb]. exists b.
    split; [exact Hb|]. unfold url_finding. cbn [status].
    now rewrite (returned_true_spec Hb). }
  split.
  { rewrite extract_phone_numbers_eq. eexists. split; [reflexivity|].
    apply classified_map. intros x.
    destruct (validate_phone_returns x) as [b Hb]. exists b.
    split; [exact Hb|]. unfold phone_finding. cbn [status].
    now rewrite (returned_true_spec Hb). }
  split.
  { rewrite extract_credit_cards_eq. eexists. split; [reflexivity|].
    apply classified_map. intros x.
    destruct (validate_credit_card_returns x) as [b Hb]. exists b.
    split; [exact Hb|]. unfold card_finding.
    rewrite (returned_true_spec Hb). now destruct b. }
  split.
  { do 4 eexists.
    rewrite extract_all_eq, extract_emails_eq, extract_urls_eq,
      extract_phone_numbers_eq, extract_credit_cards_eq.
    repeat split; reflexivity. }
  split; [apply unpack2_raises|].
  destruct (unpack2 (split "@" s)) as [[l d]|[]] eqn:E.
  - left. exists l, d. now apply unpack2_split.
  - right. apply validate_email_false. unfold EmailRejected.
    apply unpack2_raises in E. tauto.
Qed.

(** ** URLs *)

Lemma matches_lit_chars cs : forall prev w rest,
  cs <> [] -> matches (lit_chars cs) prev w rest -> w = cs.
Proof.
  induction cs as [|c cs IH]; intros prev w rest Hne HM; [congruence|].
  destruct cs as [|c' cs].
  - simpl in HM. inversion HM as [items c0 ? ? Hin| | | | | | | | | | |]; subst.
    unfold in_set in Hin. simpl in Hin. rewrite orb_false_r in Hin.
    apply Ascii.eqb_eq in Hin. now subst.
  - change (lit_chars (c :: c' :: cs))
      with (Seq (OneOf [Cc c]) (lit_chars (c' :: cs))) in HM.
    inversion HM as [|? ? ? w1 w2 ? H1 H2| | | | | | | | | |]; subst.
    apply IH in H2; [|discriminate]. subst w2.
    inversion H1 as [items c0 ? ? Hin| | | | | | | | | | |]; subst.
    unfold in_set in Hin. simpl in Hin. rewrite orb_false_r in Hin.
    apply Ascii.eqb_eq in Hin. now subst.
Qed.

Lemma url_match_scheme prev w rest :
  matches url_pattern prev w rest ->
  Starts (txt "http://") w \/ Starts (txt "https://") w.
Proof.
  unfold url_pattern. intros HM.
  inversion HM as [|? ? ? w1 w2 ? H1 H2| | | | | | | | | |]; subst.
  apply matches_lit_chars in H1; [|discriminate]. subst w1.
  inversion H2 as [|? ? ? w3 w4 ? H3 H4| | | | | | | | | |]; subst.
  inversion H4 as [|? ? ? w5 w6 ? H5 H6| | | | | | | | | |]; subst.
  apply matches_lit_chars in H5; [|discriminate]. subst w5.
  inversion H3 as [| | | |? ? ? ? Hs|? ? ?| | | | | |]; subst.
  - inversion Hs as [items c0 ? ? Hin| | | | | | | | | | |]; subst.
    unfold in_set in Hin. simpl in Hin. rewrite orb_false_r in Hin.
    apply Ascii.eqb_eq in Hin. subst c0.
    right. exists w6. reflexivity.
  - left. exists w6. reflexivity.
Qed.

Lemma url_finding_scheme t :
  Forall (fun f => Starts (txt "http://") (value f)
                   \/ Starts (txt "https://") (value f))
         (map url_finding (findall url_pattern t)).
Proof.
  apply Forall_forall. intros f Hin.
  apply in_map_iff in Hin as [url [<- Hin]].
  unfold findall in Hin. apply in_map_iff in Hin as [m [<- Hin]].
  apply finditer_sound in Hin as [post [_ [_ HM]]].
  exact (url_match_scheme HM).
Qed.


(** ** Card numbers and long runs of digits *)

Lemma is_digit_word c : is_digit c = true -> is_word c = true.
Proof. unfold is_word. now intros ->. Qed.

Lemma digits_of_app s1 s2 : digits_of (s1 ++ s2) = digits_of s1 ++ digits_of s2.
Proof. apply filter_app. Qed.

Lemma digits_of_all s :
  Forall (fun c => is_digit c = true) s -> digits_of s = s.
Proof.
  induction 1 as [|c s Hc _ IH]; simpl; [reflexivity|].
  now rewrite Hc, IH.
Qed.

Lemma card_item_digits prev w rest :
  matches card_item prev w rest -> length (digits_of w) = 1.
Proof.
  unfold card_item. intros HM.
  inversion HM as [|? ? ? w1 w2 ? H1 H2| | | | | | | | | |]; subst.
  inversion H1 as [items c0 ? ? Hin| | | | | | | | | | |]; subst.
  unfold in_set in Hin. simpl in Hin. rewrite orb_false_r in Hin.
  simpl. rewrite Hin. simpl. f_equal.
  inversion H2 as [| | | |? ? ? ? Hs|? ? ?| | | | | |]; subst;
    [|reflexivity].
  inversion Hs as [items c1 ? ? Hin1| | | | | | | | | | |]; subst.
  unfold in_set in Hin1. simpl in Hin1. rewrite orb_false_r in Hin1.
  apply orb_true_iff in Hin1 as [E|E]; apply Ascii.eqb_eq in E; subst;
    reflexivity.
Qed.

Lemma rep_card_digits hi : forall lo prev w rest,
  matches (Rep card_item lo hi) prev w rest -> length (digits_of w) <= hi.
Proof.
  induction hi as [|hi IH]; intros lo prev w rest HM;
    inversion HM as [| | | | | | | | |? ? ? ?
                     |? ? ? ? w1 w2 ? H1 H2|]; subst; simpl; try lia.
  rewrite digits_of_app, length_app, (card_item_digits H1).
  apply IH in H2. lia.
Qed.

Lemma card_match_shape prev w rest :
  matches credit_card_pattern prev w rest ->
  at_boundary prev (w ++ rest) = true
  /\ at_boundary (last_opt prev w) rest = true
  /\ length (digits_of w) <= 19
  /\ 13 <= length w.
Proof.
  intros HM. pose proof (matches_min_len HM) as Hlen. simpl in Hlen.
  unfold credit_card_pattern in HM.
  inversion HM as [|? ? ? w1 w2 ? H1 H2| | | | | | | | | |]; subst.
  inversion H1 as [| | | | | | | | | | |? ? Hb1]; subst.
  inversion H2 as [|? ? ? w3 w4 ? H3 H4| | | | | | | | | |]; subst.
  inversion H4 as [| | | | | | | | | | |? ? Hb2]; subst.
  simpl in *. rewrite app_nil_r in *.
  apply rep_card_digits in H3. repeat split; assumption || lia.
Qed.

Lemma last_opt_digits o x l :
  l <> [] -> Forall (fun c => is_digit c = true) l ->
  is_word_opt (last_opt o (x ++ l)) = true.
Proof.
  intros Hne Hall.
  destruct (@exists_last _ l Hne) as [l' [d ->]].
  rewrite app_assoc, last_opt_snoc. simpl.
  apply Forall_app in Hall as [_ Hd]. inversion Hd; subst.
  now apply is_digit_word.
Qed.

Lemma card_match_avoids_run left run right m :
  Forall (fun c => is_digit c = true) run ->
  19 < length run ->
  In m (finditer credit_card_pattern (left ++ run ++ right)) ->
  m_end m <= length left \/ length left + length run <= m_start m.
Proof.
  intros Hrun Hlong Hin. set (t := left ++ run ++ right) in *.
  apply finditer_sound in Hin as [post [Ht [Hend HM]]].
  unfold m_end in *.
  set (i := m_start m) in *. set (w := m_text m) in *.
  assert (Hi : length (firstn i t) = i) by (rewrite length_firstn; lia).
  set (pre := firstn i t) in *.
  apply card_match_shape in HM as [B1 [B2 [HD HL]]].
  destruct (le_lt_dec (i + length w) (length left)) as [|H1]; [now left|].
  destruct (le_lt_dec (length left + length run) i) as [|H2]; [now right|].
  exfalso.
  (* the match starts at or before the run *)
  assert (Hbefore : forall l,
             left = pre ++ l -> w ++ post = l ++ run ++ right -> False).
  { intros l El Ew.
    assert (Hl : length left = i + length l)
      by (rewrite El, length_app; lia).
    apply app_eq_app in Ew as [l2 [[Ew Er]|[Ew Er]]].
    2:{ rewrite Ew, length_app in Hl. lia. }
    assert (Hl2 : length w = length l + length l2)
      by (rewrite Ew, length_app; lia).
    apply app_eq_app in Er as [l3 [[Er Ep]|[Er Ep]]].
    - destruct l3 as [|d l3].
      + rewrite app_nil_r in Er. subst l2.
        rewrite Ew, !digits_of_app, !length_app, (digits_of_all Hrun) in HD.
        lia.
      + (* the match ends inside the run *)
        rewrite Er in Hrun. apply Forall_app in Hrun as [Hl2d Hl3d].
        assert (Hne : l2 <> []) by (intros ->; simpl in Hl2; lia).
        unfold at_boundary in B2.
        rewrite Ew, (last_opt_digits _ l Hne Hl2d), Ep in B2. simpl in B2.
        apply Forall_inv in Hl3d.
        now rewrite (is_digit_word _ Hl3d) in B2.
    - (* the match contains the run *)
      rewrite Ew, Er, !digits_of_app, !length_app, (digits_of_all Hrun) in HD.
      lia. }
  fold t in Ht. change (t = pre ++ w ++ post) in Ht. unfold t in Ht.
  symmetry in Ht. apply app_eq_app in Ht as [l [[El Ew]|[El Ew]]].
  - (* the match starts behind the start of the run *)
    destruct l as [|a l].
    + rewrite app_nil_r in El.
      apply (Hbefore []); [now rewrite app_nil_r|now symmetry].
    + assert (Hl : i = length left + length (a :: l))
        by (rewrite <- Hi, El, length_app; lia).
      apply app_eq_app in Ew as [l2 [[Er Ep]|[Er Ep]]].
      2:{ rewrite Er, length_app in Hl. lia. }
      destruct l2 as [|d l2].
      { rewrite app_nil_r in Er. rewrite Er in H2. lia. }
      rewrite Er in Hrun. apply Forall_app in Hrun as [Hld Hl2d].
      unfold at_boundary in B1.
      rewrite El, (last_opt_digits _ left (l := a :: l)) in B1;
        [|discriminate|exact Hld].
      rewrite Ep in B1. simpl in B1.
      apply Forall_inv in Hl2d.
      now rewrite (is_digit_word _ Hl2d) in B1.
  - exact (Hbefore l El Ew).
Qed.

Lemma card_finding_source card :
  value (card_finding card) = card
  \/ raw_format (card_finding card) = Some card.
Proof.
  unfold card_finding.
  destruct (returned_true (validate_credit_card card)); simpl; tauto.
Qed.

(** C10.  In a text that contains a run of more than 19 digits, every
    finding of [extract_credit_cards] comes from a match that lies
    entirely before or entirely behind the run: no finding, valid or
    invalid, is reported for the run or for a part of it.  A text that is
    such a run gives no finding at all. *)
Theorem long_digit_run_dropped left run right :
  Forall (fun c => is_digit c = true) run ->
  19 < length run ->
  (exists fs,
      extract_credit_cards (left ++ run ++ right) = Returns fs
      /\ Forall2
           (fun m f =>
              (value f = m_text m \/ raw_format f = Some (m_text m))
              /\ (m_end m <= length left
                  \/ length left + length run <= m_start m))
           (finditer credit_card_pattern (left ++ run ++ right)) fs)
  /\ extract_credit_cards run = Returns [].
Proof.
  intros Hrun Hlong. split.
  - rewrite extract_credit_cards_eq. eexists. split; [reflexivity|].
    unfold findall. rewrite map_map.
    pose proof (@card_match_avoids_run left run right) as Havoid.
    induction (finditer credit_card_pattern (left ++ run ++ right))
      as [|m ms IH]; simpl; constructor.
    + split; [apply card_finding_source|].
      apply Havoid; [assumption..|now left].
    + apply IH. intros m' H1 H2 Hin. apply Havoid; [assumption..|now right].
  - rewrite extract_credit_cards_eq. unfold findall.
    destruct (finditer credit_card_pattern run) as [|m ms] eqn:E;
      [reflexivity|].
    exfalso.
    assert (Hin : In m (finditer credit_card_pattern run))
      by (rewrite E; now left).
    pose proof Hin as Hs.
    apply finditer_sound in Hs as [post [_ [Hend HM]]].
    apply card_match_shape in HM as [_ [_ [_ HL]]].
    assert (Hin' : In m (finditer credit_card_pattern ([] ++ run ++ [])))
      by (simpl; now rewrite app_nil_r).
    apply (@card_match_avoids_run [] run [] m Hrun Hlong) in Hin'.
    unfold m_end in *. simpl in Hin'. lia.
Qed.

Lemma long_digit_run_dropped_witness :
  Forall (fun c => is_digit c = true) (txt "12345678901234567890")
  /\ 19 < length (txt "12345678901234567890")
  /\ (exists fs,
         extract_credit_cards
           (txt "ref " ++ txt "12345678901234567890"
            ++ txt ", card 4532 1234 5678 9010")
         = Returns fs
         /\ Forall2
              (fun m f =>
                 (value f = m_text m \/ raw_format f = Some (m_text m))
                 /\ (m_end m <= length (txt "ref ")
                     \/ length (txt "ref ")
                        + length (txt "12345678901234567890")
                        <= m_start m))
              (finditer credit_card_pattern
                        (txt "ref " ++ txt "12345678901234567890"
                         ++ txt ", card 4532 1234 5678 9010"))
              fs)
  /\ extract_credit_cards (txt "12345678901234567890") = Returns [].
Proof.
  assert (H1 : Forall (fun c => is_digit c = true)
                      (txt "12345678901234567890"))
    by (repeat (constructor; [reflexivity|]); constructor).
  assert (H2 : 19 < length (txt "12345678901234567890")) by (simpl; lia).
  split; [exact H1|]. split; [exact H2|].
  exact (@long_digit_run_dropped
           (txt "ref ") (txt "12345678901234567890")
           (txt ", card 4532 1234 5678 9010") H1 H2).
Defined.

(** ** Matching in a concatenation of two texts *)

Lemma ends_bounded r : bounded (ends r).
Proof. intros prev s n Hin. now apply ends_sound in Hin. Qed.


Lemma last_opt_nonempty p p' w : w <> [] -> last_opt p w = last_opt p' w.
Proof.
  intros Hne. destruct (@exists_last _ w Hne) as [w' [c ->]].
  now rewrite !last_opt_snoc.
Qed.

Lemma same_ctx_last b p p' w :
  same_ctx b p p' -> same_ctx b (last_opt p w) (last_opt p' w).
Proof.
  intros H. destruct w as [|c w]; [exact H|].
  right. reflexivity.
Qed.

Lemma flat_map_ext_in (A B : Type) (f g : A -> list B) l :
  (forall x, In x l -> f x = g x) -> flat_map f l = flat_map g l.
Proof.
  induction l as [|a l IH]; intros H; simpl; [reflexivity|].
  rewrite (H a (or_introl eq_refl)), IH; [reflexivity|].
  intros x Hx. apply H. now right.
Qed.

Lemma then_blind b m1 m2 :
  blind b m1 -> blind b m2 -> blind b (then_ m1 m2).
Proof.
  intros H1 H2 p p' s Hc. unfold then_.
  rewrite (H1 p p' s Hc). apply flat_map_ext_in. intros n _.
  f_equal. apply H2. now apply same_ctx_last.
Qed.

Lemma star_blind b m fuel : blind b m -> blind b (star fuel m).
Proof.
  intros Hm. induction fuel as [|fuel IH]; intros p p' s Hc; simpl;
    [reflexivity|].
  rewrite (Hm p p' s Hc). f_equal. apply flat_map_ext_in. intros n _.
  destruct (n =? 0); [reflexivity|].
  f_equal. apply IH. now apply same_ctx_last.
Qed.

Lemma rep_blind b m hi : blind b m -> forall lo, blind b (rep m lo hi).
Proof.
  intros Hm. induction hi as [|hi IH]; intros lo p p' s Hc; simpl;
    [reflexivity|].
  f_equal. exact (@then_blind b m _ Hm (IH (lo - 1)) p p' s Hc).
Qed.

Lemma ends_blind b r :
  (b = true -> assertion_free r = true) -> blind b (ends r).
Proof.
  induction r as [items|r1 IH1 r2 IH2|r1 IH1 r2 IH2|r IH|r IH|r IH
                  |r IH lo hi|];
    simpl; intros Hb p p' s Hc.
  - reflexivity.
  - assert (H1 : blind b (ends r1))
      by (apply IH1; intros E; apply Hb, andb_true_iff in E; tauto).
    assert (H2 : blind b (ends r2))
      by (apply IH2; intros E; apply Hb, andb_true_iff in E; tauto).
    exact (@then_blind b _ _ H1 H2 p p' s Hc).
  - assert (H1 : blind b (ends r1))
      by (apply IH1; intros E; apply Hb, andb_true_iff in E; tauto).
    assert (H2 : blind b (ends r2))
      by (apply IH2; intros E; apply Hb, andb_true_iff in E; tauto).
    now rewrite (H1 p p' s Hc), (H2 p p' s Hc).
  - now rewrite (IH Hb p p' s Hc).
  - exact (@star_blind b _ (length s) (IH Hb) p p' s Hc).
  - exact (@then_blind b _ _ (IH Hb) (@star_blind b _ (length s) (IH Hb))
                       p p' s Hc).
  - exact (@rep_blind b _ hi (IH Hb) lo p p' s Hc).
  - destruct Hc as [E|E]; [apply Hb in E; discriminate|].
    unfold at_boundary. now rewrite E.
Qed.

Lemma filter_flat_map (A B : Type) (P : B -> bool) (F : A -> list B) l :
  filter P (flat_map F l) = flat_map (fun x => filter P (F x)) l.
Proof.
  induction l as [|a l IH]; simpl; [reflexivity|].
  now rewrite filter_app, IH.
Qed.

Lemma flat_map_filter (A B : Type) (p : A -> bool) (G : A -> list B) l :
  flat_map (fun x => if p x then G x else []) l = flat_map G (filter p l).
Proof.
  induction l as [|a l IH]; simpl; [reflexivity|].
  destruct (p a); simpl; now rewrite IH.
Qed.

Lemma filter_map_add k n1 X :
  n1 <= k ->
  filter (fun n => n <=? k) (map (Nat.add n1) X)
  = map (Nat.add n1) (filter (fun n2 => n2 <=? k - n1) X).
Proof.
  intros Hle. induction X as [|x X IH]; simpl; [reflexivity|].
  rewrite IH.
  destruct (n1 + x <=? k) eqn:E1; destruct (x <=? k - n1) eqn:E2;
    try reflexivity; exfalso;
    rewrite ?Nat.leb_le, ?Nat.leb_gt in *; lia.
Qed.

Lemma filter_map_add_out k n1 X :
  k < n1 -> filter (fun n => n <=? k) (map (Nat.add n1) X) = [].
Proof.
  intros Hlt. induction X as [|x X IH]; simpl; [reflexivity|].
  rewrite IH. destruct (n1 + x <=? k) eqn:E; [|reflexivity].
  apply Nat.leb_le in E. lia.
Qed.

Lemma then_local t2 m1 m1' m2 m2' s :
  local_at t2 m1 m1' s ->
  (forall prev n1, In n1 (m1' prev s) -> local_at t2 m2 m2' (skipn n1 s)) ->
  local_at t2 (then_ m1 m2) (then_ m1' m2') s.
Proof.
  intros H1 H2 prev. unfold then_. rewrite filter_flat_map.
  set (F := fun n1 =>
              filter (fun n => n <=? length s)
                     (map (Nat.add n1)
                          (m2 (last_opt prev (firstn n1 (s ++ t2)))
                              (skipn n1 (s ++ t2))))).
  transitivity (flat_map (fun x => if x <=? length s then F x else [])
                         (m1 prev (s ++ t2))).
  { apply flat_map_ext_in. intros n1 _.
    destruct (n1 <=? length s) eqn:E; [reflexivity|].
    apply Nat.leb_gt in E. now apply filter_map_add_out. }
  rewrite flat_map_filter, (H1 prev).
  apply flat_map_ext_in. intros n1 Hin. unfold F.
  assert (Hle : n1 <= length s).
  { rewrite <- (H1 prev) in Hin. apply filter_In in Hin as [_ Hle].
    now apply Nat.leb_le. }
  rewrite filter_map_add by exact Hle. f_equal.
  rewrite firstn_app, skipn_app.
  replace (n1 - length s) with 0 by lia.
  rewrite firstn_O, skipn_O, app_nil_r.
  rewrite <- (H2 prev n1 Hin (last_opt prev (firstn n1 s))).
  now rewrite length_skipn.
Qed.

Lemma nonempty_local t2 m s :
  local_at t2 m m s -> local_at t2 (nonempty m) (nonempty m) s.
Proof.
  intros H prev. unfold nonempty. rewrite <- (H prev).
  induction (m prev (s ++ t2)) as [|x l IH]; [reflexivity|].
  cbn [filter].
  destruct (x =? 0) eqn:E1; destruct (x <=? length s) eqn:E2;
    cbn [filter negb]; rewrite ?E1, ?E2; cbn [negb]; now rewrite IH.
Qed.

Lemma nonempty_in m prev s n :
  bounded m -> In n (nonempty m prev s) -> 0 < n <= length s.
Proof.
  intros Hb Hin. apply filter_In in Hin as [Hin Hn].
  apply Hb in Hin. destruct n; [discriminate|lia].
Qed.

Lemma star_unfold fuel m prev s :
  star (S fuel) m prev s
  = then_ (nonempty m) (star fuel m) prev s ++ [0].
Proof.
  simpl. f_equal. unfold then_, nonempty.
  rewrite <- flat_map_filter. apply flat_map_ext_in. intros n _.
  now destruct (n =? 0).
Qed.

Lemma then_nil m1 m2 prev s : m1 prev s = [] -> then_ m1 m2 prev s = [].
Proof. unfold then_. now intros ->. Qed.

Lemma nonempty_nil m prev : bounded m -> nonempty m prev [] = [].
Proof.
  intros Hb. destruct (nonempty m prev []) as [|n l] eqn:E; [reflexivity|].
  assert (Hin : In n (nonempty m prev [])) by (rewrite E; now left).
  apply nonempty_in in Hin; [simpl in Hin; lia|exact Hb].
Qed.

Lemma star_local t2 m :
  bounded m ->
  (forall x, local_at t2 m m x) ->
  forall f1 f2 s,
    length s <= f1 -> length s <= f2 ->
    local_at t2 (star f1 m) (star f2 m) s.
Proof.
  intros Hb Hm f1. induction f1 as [|f1 IH]; intros f2 s H1 H2 prev.
  - destruct s; [|simpl in H1; lia]. simpl.
    destruct f2 as [|f2]; [reflexivity|].
    rewrite star_unfold, then_nil; [reflexivity|now apply nonempty_nil].
  - rewrite star_unfold, filter_app. simpl.
    destruct f2 as [|f2].
    + destruct s; [|simpl in H2; lia].
      rewrite (@then_local t2 (nonempty m) (nonempty m) (star f1 m)
                           (star 0 m) []).
      * rewrite then_nil; [reflexivity|now apply nonempty_nil].
      * apply nonempty_local, Hm.
      * intros p n1 Hin. apply nonempty_in in Hin; [|exact Hb].
        simpl in Hin. lia.
    + rewrite star_unfold. f_equal.
      apply then_local; [apply nonempty_local, Hm|].
      intros p n1 Hin. apply nonempty_in in Hin; [|exact Hb].
      apply IH; rewrite length_skipn; lia.
Qed.

Lemma rep_local t2 m :
  (forall x, local_at t2 m m x) ->
  forall hi lo s, local_at t2 (rep m lo hi) (rep m lo hi) s.
Proof.
  intros Hm hi. induction hi as [|hi IH]; intros lo s prev; simpl.
  - now destruct (lo =? 0).
  - rewrite filter_app. f_equal.
    + apply then_local; [apply Hm|]. intros p n1 _. apply IH.
    + now destruct (lo =? 0).
Qed.

Lemma ends_local b t2 r :
  (b = true -> assertion_free r = true) ->
  b = true \/ is_word_opt (hd_error t2) = false ->
  forall s, local_at t2 (ends r) (ends r) s.
Proof.
  intros Hb Ht2.
  induction r as [items|r1 IH1 r2 IH2|r1 IH1 r2 IH2|r IH|r IH|r IH
                  |r IH lo hi|];
    simpl in Hb; intros s prev.
  - destruct s as [|c s]; simpl.
    + destruct t2 as [|c t2]; [reflexivity|]. now destruct (in_set items c).
    + now destruct (in_set items c).
  - assert (H1 : forall x, local_at t2 (ends r1) (ends r1) x)
      by (apply IH1; intros E; apply Hb, andb_true_iff in E; tauto).
    assert (H2 : forall x, local_at t2 (ends r2) (ends r2) x)
      by (apply IH2; intros E; apply Hb, andb_true_iff in E; tauto).
    apply (@then_local t2 (ends r1) (ends r1) (ends r2) (ends r2) s);
      [apply H1|intros; apply H2].
  - assert (H1 : forall x, local_at t2 (ends r1) (ends r1) x)
      by (apply IH1; intros E; apply Hb, andb_true_iff in E; tauto).
    assert (H2 : forall x, local_at t2 (ends r2) (ends r2) x)
      by (apply IH2; intros E; apply Hb, andb_true_iff in E; tauto).
    simpl. now rewrite filter_app, (H1 s prev), (H2 s prev).
  - simpl. now rewrite filter_app, (IH Hb s prev).
  - simpl. apply (star_local (ends_bounded r) (IH Hb));
      rewrite ?length_app; lia.
  - simpl.
    apply (@then_local t2 (ends r) (ends r)
                       (star (length (s ++ t2)) (ends r))
                       (star (length s) (ends r)) s);
      [apply (IH Hb)|].
    intros p n1 _. apply (star_local (ends_bounded r) (IH Hb));
      rewrite length_skipn, ?length_app; lia.
  - simpl. apply (rep_local (IH Hb)).
  - simpl. assert (E : at_boundary prev (s ++ t2) = at_boundary prev s).
    { destruct s as [|c s]; [|reflexivity]. simpl. unfold at_boundary.
      destruct Ht2 as [E|E]; [apply Hb in E; discriminate|].
      simpl. now rewrite E. }
    rewrite E. now destruct (at_boundary prev s).
Qed.

(** The fuel of [star] is never what stops it: any two amounts that
    cover the rest of the text give the same result. *)
Lemma star_fuel_enough r f1 f2 prev s :
  length s <= f1 -> length s <= f2 ->
  star f1 (ends r) prev s = star f2 (ends r) prev s.
Proof.
  intros H1 H2.
  assert (Hloc : forall x, local_at [] (ends r) (ends r) x).
  { apply (@ends_local false); [discriminate|now right]. }
  rewrite <- (star_local (ends_bounded r) Hloc s H1 H2 prev).
  rewrite <- (star_local (ends_bounded r) Hloc s H1 H1 prev) at 1.
  reflexivity.
Qed.

(** None of the four patterns can match the empty string, so the scan
    never has to report an empty match. *)
Lemma patterns_consume :
  Forall (fun r => forall prev, 0 < min_len r /\ ends r prev [] = [])
         patterns.
Proof.
  assert (H : Forall (fun r => 0 < min_len r) patterns)
    by (repeat constructor; vm_compute; lia).
  eapply Forall_impl; [|exact H]. intros r Hr prev.
  split; [exact Hr|].
  destruct (ends r prev []) as [|n l] eqn:E; [reflexivity|].
  assert (Hin : In n (ends r prev [])) by (rewrite E; now left).
  apply ends_sound in Hin as [Hle HM]. apply matches_min_len in HM.
  rewrite length_firstn in HM. simpl in *. lia.
Qed.

(** ** The matcher reports every match of the pattern *)

Lemma star_zero fuel m prev s : In 0 (star fuel m prev s).
Proof.
  destruct fuel; simpl; [now left|]. apply in_or_app. right. now left.
Qed.

Lemma rep_zero m hi prev s : In 0 (rep m 0 hi prev s).
Proof.
  destruct hi; simpl; [now left|]. apply in_or_app. right. now left.
Qed.

Lemma firstn_length_app (A : Type) (w rest : list A) :
  firstn (length w) (w ++ rest) = w.
Proof.
  now rewrite firstn_app, Nat.sub_diag, firstn_all, firstn_O, app_nil_r.
Qed.

Lemma skipn_length_app (A : Type) (w rest : list A) :
  skipn (length w) (w ++ rest) = rest.
Proof.
  now rewrite skipn_app, Nat.sub_diag, skipn_all, skipn_O.
Qed.

Lemma then_complete (m1 m2 : matcher) prev (w1 w2 rest : text) :
  In (length w1) (m1 prev (w1 ++ w2 ++ rest)) ->
  In (length w2) (m2 (last_opt prev w1) (w2 ++ rest)) ->
  In (length (w1 ++ w2)) (then_ m1 m2 prev ((w1 ++ w2) ++ rest)).
Proof.
  intros H1 H2. apply in_then_. exists (length w1), (length w2).
  rewrite <- app_assoc, firstn_length_app, skipn_length_app, length_app.
  tauto.
Qed.

Lemma ends_complete r prev w rest :
  matches r prev w rest -> In (length w) (ends r prev (w ++ rest)).
Proof.
  induction 1 as [items c0 prev rest Hin
                 |r1 r2 prev w1 w2 rest H1 IH1 H2 IH2
                 |r1 r2 prev w rest H1 IH1|r1 r2 prev w rest H1 IH1
                 |r prev w rest H1 IH1|r prev rest|r prev rest
                 |r prev w1 w2 rest H1 IH1 H2 IH2
                 |r prev w1 w2 rest H1 IH1 H2 IH2
                 |r hi prev rest
                 |r lo hi prev w1 w2 rest H1 IH1 H2 IH2
                 |prev rest Hb];
    cbn [ends].
  - simpl. rewrite Hin. now left.
  - now apply then_complete.
  - apply in_or_app. now left.
  - apply in_or_app. now right.
  - apply in_or_app. now left.
  - apply in_or_app. right. now left.
  - apply star_zero.
  - cbn [ends] in IH2. destruct w1 as [|c w1]; [exact IH2|].
    assert (Hlen : length (((c :: w1) ++ w2) ++ rest)
                   = S (length (w1 ++ w2 ++ rest)))
      by (rewrite <- app_assoc; reflexivity).
    rewrite Hlen. cbn [star]. apply in_or_app. left.
    apply in_flat_map. exists (length (c :: w1)).
    rewrite <- app_assoc. split; [exact IH1|].
    cbn [length Nat.eqb]. apply in_map_iff. exists (length w2).
    split; [now rewrite length_app|].
    change (S (length w1)) with (length (c :: w1)).
    rewrite firstn_length_app, skipn_length_app.
    rewrite (@star_fuel_enough r _ (length (w2 ++ rest)));
      [exact IH2|rewrite !length_app; lia|lia].
  - cbn [ends] in IH2. apply then_complete; [exact IH1|].
    rewrite (@star_fuel_enough r _ (length (w2 ++ rest)));
      [exact IH2|rewrite !length_app; lia|lia].
  - apply rep_zero.
  - cbn [ends] in IH2. cbn [rep]. apply in_or_app. left.
    now apply then_complete.
  - simpl. rewrite Hb. now left.
Qed.

(** The ways of the matcher are exactly the matches of the pattern. *)
Lemma ends_exact r prev s n :
  In n (ends r prev s)
  <-> n <= length s /\ matches r prev (firstn n s) (skipn n s).
Proof.
  split; [apply ends_sound|]. intros [Hle HM].
  apply ends_complete in HM.
  now rewrite firstn_skipn, length_firstn, Nat.min_l in HM.
Qed.


Lemma ends_nil r prev : 0 < min_len r -> ends r prev [] = [].
Proof.
  intros Hpos. destruct (ends r prev []) as [|n l] eqn:E; [reflexivity|].
  assert (Hin : In n (ends r prev [])) by (rewrite E; now left).
  apply ends_sound in Hin as [Hle HM]. apply matches_min_len in HM.
  rewrite length_firstn in HM. simpl in *. lia.
Qed.

(** The scan of [s1 ++ t2] is the scan of [s1] followed by the scan of
    [t2], when none of its matches spans the place where they meet. *)
Lemma scan_app b r t2 :
  (b = true -> assertion_free r = true) ->
  b = true \/ is_word_opt (hd_error t2) = false ->
  0 < min_len r ->
  forall s1 prev pos skip,
    skip <= length s1 ->
    (forall m, In m (scan r prev (s1 ++ t2) pos skip) ->
               spans (pos + length s1) m = false) ->
    scan r prev (s1 ++ t2) pos skip
    = scan r prev s1 pos skip
      ++ scan r (last_opt prev s1) t2 (pos + length s1) 0.
Proof.
  intros Hb Ht2 Hpos s1.
  induction s1 as [|c s1 IH]; intros prev pos skip Hskip Hspan.
  - simpl in Hskip. assert (skip = 0) by lia. subst skip.
    simpl. rewrite (ends_nil r prev Hpos), Nat.add_0_r. reflexivity.
  - cbn [length] in *. replace (pos + S (length s1)) with (S pos + length s1)
      in * by lia.
    change (last_opt prev (c :: s1)) with (last_opt (Some c) s1).
    destruct skip as [|k].
    + pose proof (@ends_local b t2 r Hb Ht2 (c :: s1) prev) as Hloc.
      cbn [app scan] in *.
      destruct (ends r prev (c :: s1 ++ t2)) as [|n l] eqn:E.
      * simpl in Hloc. rewrite <- Hloc.
        apply IH; [lia|exact Hspan].
      * assert (Hn : n <= S (length s1)).
        { specialize (Hspan _ (or_introl eq_refl)).
          unfold spans, m_end in Hspan. cbn [m_start m_text] in Hspan.
          assert (Hle : n <= length (c :: s1 ++ t2)).
          { apply (ends_bounded r prev). rewrite E. now left. }
          rewrite length_firstn, Nat.min_l in Hspan by exact Hle.
          apply andb_false_iff in Hspan as [H|H];
            [apply Nat.ltb_ge in H|apply Nat.ltb_ge in H]; lia. }
        cbn [filter] in Hloc.
        replace (n <=? length (c :: s1)) with true in Hloc
          by (symmetry; apply Nat.leb_le; simpl; lia).
        rewrite <- Hloc. cbn [app]. f_equal.
        -- f_equal. change (c :: s1 ++ t2) with ((c :: s1) ++ t2).
           rewrite firstn_app. replace (n - length (c :: s1)) with 0
             by (simpl; lia).
           now rewrite firstn_O, app_nil_r.
        -- apply IH; [lia|]. intros m Hm. apply Hspan. now right.
    + cbn [app scan]. apply IH; [lia|exact Hspan].
Qed.








(** * Further properties of the engine *)

(** ** Characters and counts of matches *)

Lemma set_within_spec P items c :
  set_within P items = true -> in_set items c = true -> P c = true.
Proof. apply set_all. Qed.

Lemma set_without_spec P items c :
  set_without P items = true -> in_set items c = true -> P c = false.
Proof.
  unfold set_without. rewrite forallb_forall. intros H Hin.
  specialize (H c (in_all_chars c)). rewrite Hin in H. simpl in H.
  now destruct (P c).
Qed.

Lemma matches_chars P r prev w rest :
  matches r prev w rest ->
  chars_all P r = true ->
  Forall (fun c => P c = true) w.
Proof.
  induction 1 as [items c0 prev rest Hin
                 |r1 r2 prev w1 w2 rest H1 IH1 H2 IH2
                 |r1 r2 prev w rest H1 IH1|r1 r2 prev w rest H1 IH1
                 |r prev w rest H1 IH1|r prev rest|r prev rest
                 |r prev w1 w2 rest H1 IH1 H2 IH2
                 |r prev w1 w2 rest H1 IH1 H2 IH2
                 |r hi prev rest
                 |r lo hi prev w1 w2 rest H1 IH1 H2 IH2
                 |prev rest Hb];
    cbn [chars_all] in *; intros HP; try (now constructor).
  - constructor; [|constructor]. exact (set_within_spec _ _ _ HP Hin).
  - apply andb_true_iff in HP as [HP1 HP2]. apply Forall_app. auto.
  - apply andb_true_iff in HP as [HP1 HP2]. auto.
  - apply andb_true_iff in HP as [HP1 HP2]. auto.
  - auto.
  - apply Forall_app. auto.
  - apply Forall_app. auto.
  - apply Forall_app. auto.
Qed.

Lemma count_app P s1 s2 : count P (s1 ++ s2) = count P s1 + count P s2.
Proof. unfold count. now rewrite filter_app, length_app. Qed.

Lemma matches_count_min P r prev w rest :
  matches r prev w rest -> count_min P r <= count P w.
Proof.
  induction 1 as [items c0 prev rest Hin
                 |r1 r2 prev w1 w2 rest H1 IH1 H2 IH2
                 |r1 r2 prev w rest H1 IH1|r1 r2 prev w rest H1 IH1
                 |r prev w rest H1 IH1|r prev rest|r prev rest
                 |r prev w1 w2 rest H1 IH1 H2 IH2
                 |r prev w1 w2 rest H1 IH1 H2 IH2
                 |r hi prev rest
                 |r lo hi prev w1 w2 rest H1 IH1 H2 IH2
                 |prev rest Hb];
    cbn [count_min] in *; rewrite ?count_app; try lia.
  - destruct (set_within P items) eqn:E; [|lia].
    unfold count. simpl. now rewrite (set_within_spec _ _ _ E Hin).
  - destruct lo; cbn [Nat.sub Nat.mul] in *; [lia|].
    rewrite Nat.sub_0_r in IH2. lia.
Qed.

Lemma matches_count_max P r prev w rest :
  matches r prev w rest ->
  forall k, count_max P r = Some k -> count P w <= k.
Proof.
  induction 1 as [items c0 prev rest Hin
                 |r1 r2 prev w1 w2 rest H1 IH1 H2 IH2
                 |r1 r2 prev w rest H1 IH1|r1 r2 prev w rest H1 IH1
                 |r prev w rest H1 IH1|r prev rest|r prev rest
                 |r prev w1 w2 rest H1 IH1 H2 IH2
                 |r prev w1 w2 rest H1 IH1 H2 IH2
                 |r hi prev rest
                 |r lo hi prev w1 w2 rest H1 IH1 H2 IH2
                 |prev rest Hb];
    cbn [count_max]; intros k Hk; rewrite ?count_app;
    try (unfold count; simpl; lia).
  - destruct (set_without P items) eqn:E; injection Hk as <-.
    + unfold count. simpl. now rewrite (set_without_spec _ _ _ E Hin).
    + unfold count. simpl. destruct (P c0); simpl; lia.
  - destruct (count_max P r1) as [a|]; [|discriminate].
    destruct (count_max P r2) as [b|]; [|discriminate].
    injection Hk as <-. specialize (IH1 a eq_refl).
    specialize (IH2 b eq_refl). lia.
  - destruct (count_max P r1) as [a|]; [|discriminate].
    destruct (count_max P r2) as [b|]; [|discriminate].
    injection Hk as <-. specialize (IH1 a eq_refl). lia.
  - destruct (count_max P r1) as [a|]; [|discriminate].
    destruct (count_max P r2) as [b|]; [|discriminate].
    injection Hk as <-. specialize (IH1 b eq_refl). lia.
  - now apply IH1.
  - cbn [count_max] in IH2.
    destruct (count_max P r) as [[|a]|]; try discriminate.
    injection Hk as <-. specialize (IH1 0 eq_refl).
    specialize (IH2 0 eq_refl). lia.
  - cbn [count_max] in IH2.
    destruct (count_max P r) as [[|a]|]; try discriminate.
    injection Hk as <-. specialize (IH1 0 eq_refl).
    specialize (IH2 0 eq_refl). lia.
  - cbn [count_max] in IH2.
    destruct (count_max P r) as [a|]; [|discriminate].
    injection Hk as <-. specialize (IH1 a eq_refl).
    specialize (IH2 (hi * a) eq_refl). lia.
Qed.

(** ** A URL in the middle of a text *)

Lemma filter_id (A : Type) (P : A -> bool) l :
  (forall x, In x l -> P x = true) -> filter P l = l.
Proof.
  induction l as [|a l IH]; intros H; simpl; [reflexivity|].
  rewrite (H a (or_introl eq_refl)), IH; [reflexivity|].
  intros x Hx. apply H. now right.
Qed.

Lemma one_of_char c c0 prev w rest :
  matches (OneOf [Cc c]) prev w rest -> w = [c0] -> c0 = c.
Proof.
  intros HM ->. inversion HM as [items c1 ? ? Hin| | | | | | | | | | |]; subst.
  unfold in_set in Hin. simpl in Hin. rewrite orb_false_r in Hin.
  now apply Ascii.eqb_eq in Hin.
Qed.

Lemma matches_Seq_inv r1 r2 prev w rest :
  matches (Seq r1 r2) prev w rest ->
  exists w1 w2,
    w = w1 ++ w2
    /\ matches r1 prev w1 (w2 ++ rest)
    /\ matches r2 (last_opt prev w1) w2 rest.
Proof.
  intros HM. inversion HM as [|? ? ? w1 w2 ? H1 H2| | | | | | | | | |]; subst.
  now exists w1, w2.
Qed.

Lemma matches_Opt_inv r prev w rest :
  matches (Opt r) prev w rest -> w = [] \/ matches r prev w rest.
Proof.
  intros HM. inversion HM as [| | | |? ? ? ? Hs|? ? ?| | | | | |]; subst;
    [now right|now left].
Qed.

Lemma matches_OneOf_inv items prev w rest :
  matches (OneOf items) prev w rest ->
  exists c, w = [c] /\ in_set items c = true.
Proof.
  intros HM. inversion HM as [? c ? ? Hin| | | | | | | | | | |]; subst.
  now exists c.
Qed.

(** A match that starts with the whole example URL goes on, if at all,
    with a character of the path set. *)
Lemma url_example_maximal prev c w' rest :
  matches url_pattern prev (txt "https://example.com/path?x=1" ++ c :: w')
          rest ->
  url_path_char c = true.
Proof.
  unfold url_pattern. intros HM.
  apply matches_Seq_inv in HM as [w1 [w2 [Ew [H1 H2]]]].
  apply matches_lit_chars in H1; [|discriminate]. subst w1.
  injection Ew as Ew.
  apply matches_Seq_inv in H2 as [w3 [w4 [Ew2 [H3 H4]]]].
  apply matches_Seq_inv in H4 as [w5 [w6 [Ew4 [H5 H6]]]].
  apply matches_lit_chars in H5; [|discriminate]. subst w5 w4.
  apply matches_Opt_inv in H3 as [->|H3];
    [rewrite Ew2 in Ew; discriminate Ew|].
  apply matches_OneOf_inv in H3 as [c0 [-> _]].
  rewrite Ew2 in Ew. injection Ew as _ Ew.
  apply matches_Seq_inv in H6 as [w7 [w8 [Ew6 [H7 H8]]]].
  pose proof (matches_chars url_host_char H7 ltac:(vm_compute; reflexivity))
    as Hhost.
  pose proof (matches_chars url_path_char H8 ltac:(vm_compute; reflexivity))
    as Hpath.
  rewrite Forall_forall in Hhost, Hpath.
  rewrite Ew6 in Ew.
  change (txt "example.com" ++ (txt "/path?x=1" ++ c :: w') = w7 ++ w8)
    in Ew.
  apply Hpath. symmetry in Ew.
  apply app_eq_app in Ew as [l [[E7 E8]|[E7 E8]]].
  - destruct l as [|a l].
    + simpl in E8. rewrite <- E8. simpl. do 9 right. now left.
    + exfalso. injection E8 as <- _.
      assert (Hs' : url_host_char "/"%char = true); [|discriminate Hs'].
      apply Hhost. rewrite E7. apply in_or_app. right. now left.
  - rewrite E8. apply in_or_app. right. simpl. do 9 right. now left.
Qed.

Lemma url_example_ends prev post :
  path_goes_on post = false ->
  ends url_pattern prev (txt "https://example.com/path?x=1" ++ post)
  = ends url_pattern None (txt "https://example.com/path?x=1").
Proof.
  intros Hpost.
  assert (Hb : true = true -> assertion_free url_pattern = true)
    by reflexivity.
  rewrite <- (@ends_blind true url_pattern Hb prev None _
                          (or_introl eq_refl)).
  rewrite <- (@ends_local true post url_pattern Hb (or_introl eq_refl)
                          (txt "https://example.com/path?x=1") prev).
  symmetry. apply filter_id. intros n Hin. apply Nat.leb_le.
  destruct (le_lt_dec n (length (txt "https://example.com/path?x=1")))
    as [Hle|Hgt]; [exact Hle|exfalso].
  apply ends_sound in Hin as [Hn HM].
  destruct post as [|c post];
    [rewrite app_nil_r in Hn; lia|].
  rewrite firstn_app, firstn_all2 in HM by lia.
  destruct (n - length (txt "https://example.com/path?x=1"))
    as [|k] eqn:Ek; [lia|].
  cbn [firstn] in HM. apply url_example_maximal in HM.
  simpl in Hpost. congruence.
Qed.

Lemma scan_head r prev c s pos n l :
  ends r prev (c :: s) = n :: l ->
  scan r prev (c :: s) pos 0
  = MkMatch pos (firstn n (c :: s)) :: scan r (Some c) s (S pos) (n - 1).
Proof. intros E. simpl. now rewrite E. Qed.

Lemma url_example_found pre post :
  no_match_spans url_pattern pre
                 (txt "https://example.com/path?x=1" ++ post) = true ->
  path_goes_on post = false ->
  In (MkMatch (length pre) (txt "https://example.com/path?x=1"))
     (finditer url_pattern
               (pre ++ txt "https://example.com/path?x=1" ++ post)).
Proof.
  intros Hspan Hpost. unfold finditer.
  unfold no_match_spans, finditer in Hspan. rewrite forallb_forall in Hspan.
  assert (Hb : true = true -> assertion_free url_pattern = true)
    by reflexivity.
  assert (Hpos : 0 < min_len url_pattern) by (vm_compute; lia).
  rewrite (@scan_app true url_pattern _ Hb (or_introl eq_refl) Hpos
                     pre None 0 0 (Nat.le_0_l _)).
  2:{ intros m Hm. apply Hspan in Hm. simpl.
      now destruct (spans (length pre) m). }
  apply in_or_app. right. simpl Nat.add.
  assert (He : exists l,
             ends url_pattern (last_opt None pre)
                  (txt "https://example.com/path?x=1" ++ post) = 28 :: l).
  { rewrite (url_example_ends _ post Hpost). vm_compute. eexists.
    reflexivity. }
  destruct He as [l He].
  change (txt "https://example.com/path?x=1" ++ post)
    with ("h"%char :: txt "ttps://example.com/path?x=1" ++ post) in *.
  rewrite (@scan_head _ _ _ _ (length pre) _ _ He). left. reflexivity.
Qed.

(** C3, as the code has it.  [validate_url] returns [False] for
    ["javascript:alert('xss')"], but the URL pattern only matches
    candidates that start with [http://] or [https://]: in every text,
    every finding of [extract_urls] has such a value and none is for
    ["javascript:alert('xss')"].  In a text that contains
    ['https://example.com/path?x=1'], a valid finding is reported for
    it when no match that starts before it runs into it and the text
    does not go on behind it with a character of the path set. *)
Theorem url_findings_are_http :
  validate_url (txt "javascript:alert('xss')") = Returns false
  /\ (forall t,
        exists fs,
          extract_urls t = Returns fs
          /\ Forall (fun f => (Starts (txt "http://") (value f)
                               \/ Starts (txt "https://") (value f))
                              /\ value f <> txt "javascript:alert('xss')")
                    fs)
  /\ extract_urls (txt "javascript:alert('xss')") = Returns []
  /\ (forall pre post,
        no_match_spans url_pattern pre
                       (txt "https://example.com/path?x=1" ++ post) = true ->
        path_goes_on post = false ->
        exists fs,
          extract_urls (pre ++ txt "https://example.com/path?x=1" ++ post)
          = Returns fs
          /\ In (MkFinding "url" (txt "https://example.com/path?x=1")
                           "valid" None) fs
          /\ In (MkMatch (length pre) (txt "https://example.com/path?x=1"))
                (finditer url_pattern
                          (pre ++ txt "https://example.com/path?x=1"
                           ++ post)))
  /\ extract_urls (txt "https://example.com/path?x=1")
     = Returns [MkFinding "url" (txt "https://example.com/path?x=1")
                          "valid" None]
  /\ extract_urls (txt "- Blog: https://example.com/path?x=1 (new)")
     = Returns [MkFinding "url" (txt "https://example.com/path?x=1")
                          "valid" None].
Proof.
  split; [vm_compute; reflexivity|].
  split; [|split; [vm_compute; reflexivity|
                   split; [|split; vm_compute; reflexivity]]].
  - intros t. rewrite extract_urls_eq. eexists. split; [reflexivity|].
    eapply Forall_impl; [|apply url_finding_scheme].
    intros f H. split; [exact H|].
    intros E. destruct H as [[post H]|[post H]]; rewrite E in H;
      discriminate.
  - intros pre post Hspan Hpost.
    pose proof (url_example_found pre post Hspan Hpost) as Hm.
    rewrite extract_urls_eq. eexists. split; [reflexivity|].
    split; [|exact Hm].
    change (MkFinding "url" (txt "https://example.com/path?x=1") "valid"
                      None)
      with (url_finding (txt "https://example.com/path?x=1")).
    apply in_map. unfold findall.
    change (txt "https://example.com/path?x=1")
      with (m_text (MkMatch (length pre)
                            (txt "https://example.com/path?x=1"))) at 1.
    now apply in_map.
Qed.

Lemma url_findings_are_http_witness :
  no_match_spans url_pattern (txt "see http://a.b, then ")
                 (txt "https://example.com/path?x=1" ++ txt ": ok") = true
  /\ path_goes_on (txt ": ok") = false
  /\ exists fs,
       extract_urls (txt "see http://a.b, then "
                     ++ txt "https://example.com/path?x=1" ++ txt ": ok")
       = Returns fs
       /\ In (MkFinding "url" (txt "https://example.com/path?x=1")
                        "valid" None) fs
       /\ In (MkMatch (length (txt "see http://a.b, then "))
                      (txt "https://example.com/path?x=1"))
             (finditer url_pattern
                       (txt "see http://a.b, then "
                        ++ txt "https://example.com/path?x=1"
                        ++ txt ": ok")).
Proof.
  assert (H1 : no_match_spans
                 url_pattern (txt "see http://a.b, then ")
                 (txt "https://example.com/path?x=1" ++ txt ": ok") = true)
    by (vm_compute; reflexivity).
  assert (H2 : path_goes_on (txt ": ok") = false) by reflexivity.
  split; [exact H1|]. split; [exact H2|].
  exact (proj1 (proj2 (proj2 (proj2 url_findings_are_http)))
               (txt "see http://a.b, then ") (txt ": ok") H1 H2).
Defined.

(** C3, as the claim states it, fails twice.  The text
    ["javascript:alert('xss')"], and the line of the sample input that
    contains it, give no URL finding at all.  A text can contain
    ['https://example.com/path?x=1'] and give no finding for it: when a
    path character follows, the finding is for the longer string, and
    when a match that starts before runs into it, none is reported
    behind that match. *)
Lemma url_javascript_not_reported :
  extract_urls (txt "javascript:alert('xss')") = Returns []
  /\ extract_urls (txt "- Invalid: htps://typo.com, javascript:alert('xss')")
     = Returns []
  /\ (~ exists fs f,
         extract_urls (txt "javascript:alert('xss')") = Returns fs
         /\ In f fs
         /\ value f = txt "javascript:alert('xss')"
         /\ status f = "invalid"%string)
  /\ extract_urls (txt "https://example.com/path?x=12")
     = Returns [MkFinding "url" (txt "https://example.com/path?x=12")
                          "valid" None]
  /\ extract_urls (txt "http://ahttps://example.com/path?x=1")
     = Returns [MkFinding "url" (txt "http://ahttps") "valid" None]
  /\ ~ (forall pre post,
          exists fs,
            extract_urls (pre ++ txt "https://example.com/path?x=1" ++ post)
            = Returns fs
            /\ In (MkFinding "url" (txt "https://example.com/path?x=1")
                             "valid" None) fs).
Proof.
  split; [vm_compute; reflexivity|]. split; [vm_compute; reflexivity|].
  split.
  { intros [fs [f [H [Hin _]]]].
    vm_compute in H. injection H as <-. destruct Hin. }
  split; [vm_compute; reflexivity|]. split; [vm_compute; reflexivity|].
  intros H. destruct (H [] (txt "2")) as [fs [E Hin]].
  vm_compute in E. injection E as <-.
  destruct Hin as [Hin|[]]. discriminate Hin.
Qed.

Lemma Forall2_map_in (A B : Type) (P : A -> B -> Prop) (g : A -> B) l :
  (forall x, In x l -> P x (g x)) -> Forall2 P l (map g l).
Proof.
  induction l as [|a l IH]; intros H; simpl; constructor.
  - apply H. now left.
  - apply IH. intros x Hx. apply H. now right.
Qed.

Lemma findall_matches r t w :
  In w (findall r t) ->
  exists pre post prev, t = pre ++ w ++ post /\ matches r prev w post.
Proof.
  unfold findall. intros Hin. apply in_map_iff in Hin as [m [<- Hin]].
  apply finditer_sound in Hin as [post [Ht [_ HM]]].
  now exists (firstn (m_start m) t), post,
    (last_opt None (firstn (m_start m) t)).
Qed.

Lemma label_invalid b : label b = "invalid"%string <-> b = false.
Proof. destruct b; simpl; split; congruence. Qed.

Lemma label_valid b : label b = "valid"%string <-> b = true.
Proof. destruct b; simpl; split; congruence. Qed.

Lemma all_identical_dec s : AllIdentical s \/ ~ AllIdentical s.
Proof.
  destruct s as [|c s]; [left; intros a b []|].
  destruct (Nat.eq_dec (length (set_of (c :: s))) 1) as [E|E].
  - left. now apply set_of_one in E.
  - right. intros H. apply E, set_of_one. split; [discriminate|exact H].
Qed.

(** ** Card candidates *)

Lemma card_chars_digits w :
  Forall (fun c => card_char c = true) w ->
  delete_spaces_hyphens w = digits_of w.
Proof.
  unfold delete_spaces_hyphens, digits_of.
  induction 1 as [|c w Hc _ IH]; simpl; [reflexivity|].
  rewrite IH. unfold card_char in Hc.
  destruct (is_digit c); destruct (_ || _); simpl in *;
    congruence.
Qed.

Lemma digits_of_Forall w : Forall (fun c => is_digit c = true) (digits_of w).
Proof.
  apply Forall_forall. intros c Hc. now apply filter_In in Hc.
Qed.

Lemma card_candidate_shape t card :
  In card (findall credit_card_pattern t) ->
  Forall (fun c => is_digit c = true) (delete_spaces_hyphens card)
  /\ 13 <= length (delete_spaces_hyphens card) <= 19.
Proof.
  intros Hin. apply findall_matches in Hin as [pre [post [prev [_ HM]]]].
  rewrite (card_chars_digits
             (matches_chars card_char HM ltac:(vm_compute; reflexivity))).
  split; [apply digits_of_Forall|].
  pose proof (matches_count_min is_digit HM) as Hmin.
  pose proof (@matches_count_max is_digit _ _ _ _ HM 19
                                 ltac:(vm_compute; reflexivity)) as Hmax.
  change (count_min is_digit credit_card_pattern) with 13 in Hmin.
  unfold count in *. fold (digits_of card) in *. lia.
Qed.

(** C1.  Every finding of [extract_credit_cards] with status valid comes
    from a matched candidate that is kept unchanged as its raw format;
    its value is as long as the candidate without its spaces and hyphens,
    ends with the last four digits of that string, and is made of
    asterisks before them, so that no digit other than the last four is
    left in the value. *)
Theorem valid_card_is_masked t fs f :
  extract_credit_cards t = Returns fs ->
  In f fs ->
  status f = "valid"%string ->
  exists card,
    In card (findall credit_card_pattern t)
    /\ raw_format f = Some card
    /\ length (value f) = length (delete_spaces_hyphens card)
    /\ last_chars 4 (value f) = last_chars 4 (delete_spaces_hyphens card)
    /\ length (last_chars 4 (delete_spaces_hyphens card)) = 4
    /\ Forall (fun c => is_digit c = true)
              (last_chars 4 (delete_spaces_hyphens card))
    /\ (forall i, i < length (delete_spaces_hyphens card) - 4 ->
                  nth_error (value f) i = Some "*"%char)
    /\ value f = repeat "*"%char (length (delete_spaces_hyphens card) - 4)
                 ++ last_chars 4 (delete_spaces_hyphens card).
Proof.
  rewrite extract_credit_cards_eq. intros Hfs Hin Hst.
  injection Hfs as <-. apply in_map_iff in Hin as [card [<- Hcard]].
  apply card_finding_valid in Hst as [Hv ->].
  destruct (card_candidate_shape _ _ Hcard) as [Hd Hlen].
  exists card. cbn [raw_format value]. rewrite normalized_eq.
  split; [exact Hcard|]. split; [reflexivity|].
  split; [apply masked_length|]. split; [apply masked_last|].
  split; [rewrite last_chars_length; lia|].
  split; [now apply last_chars_Forall|].
  split; [intros i; apply masked_stars|apply masked_eq].
Qed.

Lemma valid_card_is_masked_witness :
  exists card,
    In card (findall credit_card_pattern (txt "Visa: 4532 1234 5678 9010"))
    /\ Some (txt "4532 1234 5678 9010") = Some card
    /\ 16 = length (delete_spaces_hyphens card)
    /\ last_chars 4 (txt "************9010")
       = last_chars 4 (delete_spaces_hyphens card)
    /\ length (last_chars 4 (delete_spaces_hyphens card)) = 4
    /\ Forall (fun c => is_digit c = true)
              (last_chars 4 (delete_spaces_hyphens card))
    /\ (forall i, i < length (delete_spaces_hyphens card) - 4 ->
                  nth_error (txt "************9010") i = Some "*"%char)
    /\ txt "************9010"
       = repeat "*"%char (length (delete_spaces_hyphens card) - 4)
         ++ last_chars 4 (delete_spaces_hyphens card).
Proof.
  apply (@valid_card_is_masked
           (txt "Visa: 4532 1234 5678 9010")
           [MkFinding "credit_card" (txt "************9010") "valid"
                      (Some (txt "4532 1234 5678 9010"))]
           (MkFinding "credit_card" (txt "************9010") "valid"
                      (Some (txt "4532 1234 5678 9010")))).
  - vm_compute. reflexivity.
  - simpl. left. reflexivity.
  - reflexivity.
Defined.

Lemma is_digit_isdigit_char c : is_digit c = true -> isdigit_char c = true.
Proof. unfold isdigit_char. now intros ->. Qed.





Lemma card_finding_status card :
  status (card_finding card)
  = label (returned_true (validate_credit_card card)).
Proof.
  unfold card_finding.
  now destruct (returned_true (validate_credit_card card)).
Qed.

(** X1.  Every candidate that the card pattern finds has, once its
    spaces and hyphens are deleted, only digits and between 13 and 19 of
    them: on a candidate, the digit and length checks of
    [validate_credit_card] never fail.  A card finding is invalid exactly
    when all the digits of the candidate are the same one, and valid
    otherwise. *)
Theorem card_invalid_iff_repeated t :
  exists fs,
    extract_credit_cards t = Returns fs
    /\ Forall2
         (fun card f =>
            Forall (fun c => is_digit c = true) (delete_spaces_hyphens card)
            /\ 13 <= length (delete_spaces_hyphens card) <= 19
            /\ (status f = "invalid"%string
                <-> AllIdentical (delete_spaces_hyphens card))
            /\ (status f = "valid"%string
                <-> ~ AllIdentical (delete_spaces_hyphens card)))
         (findall credit_card_pattern t) fs.
Proof.
  rewrite extract_credit_cards_eq. eexists. split; [reflexivity|].
  apply Forall2_map_in. intros card Hin.
  destruct (card_candidate_shape _ _ Hin) as [Hd Hlen].
  assert (Hd' : Forall (fun c => isdigit_char c = true)
                       (delete_spaces_hyphens card))
    by (eapply Forall_impl; [|exact Hd]; apply is_digit_isdigit_char).
  split; [exact Hd|]. split; [exact Hlen|].
  rewrite card_finding_status.
  destruct (validate_credit_card_returns card) as [b Hb].
  rewrite (returned_true_spec Hb), label_invalid, label_valid.
  pose proof (validate_credit_card_true card) as Htrue.
  unfold CardAccepted in Htrue. rewrite Hb in Htrue.
  destruct b; split; split; intros H; try reflexivity; try discriminate.
  - exfalso. assert (E : Returns true = Returns true) by reflexivity.
    apply Htrue in E. tauto.
  - assert (E : Returns true = Returns true) by reflexivity.
    apply Htrue in E. tauto.
  - destruct (all_identical_dec (delete_spaces_hyphens card))
      as [Hall|Hall]; [exact Hall|].
    assert (E : @Returns bool false = Returns true)
      by (apply Htrue; tauto).
    discriminate.
  - exfalso. assert (E : @Returns bool false = Returns true)
      by (apply Htrue; tauto).
    discriminate.
Qed.

(** ** Phone candidates *)

Lemma phone_candidate_digits t phone :
  In phone (findall phone_pattern t) ->
  10 <= length (digits_of phone) <= 18.
Proof.
  intros Hin. apply findall_matches in Hin as [pre [post [prev [_ HM]]]].
  pose proof (matches_count_min is_digit HM) as Hmin.
  pose proof (@matches_count_max is_digit _ _ _ _ HM 18
                                 ltac:(vm_compute; reflexivity)) as Hmax.
  change (count_min is_digit phone_pattern) with 10 in Hmin.
  unfold count in *. fold (digits_of phone) in *. lia.
Qed.

(** X2.  Every candidate that the phone pattern finds has between 10 and
    18 digits, so the lower bound of [validate_phone] never fails on a
    candidate.  A phone finding is invalid exactly when the candidate has
    more than 15 digits (a country code and an extension can bring it to
    18) or when all its digits are the same one; its value is the
    candidate. *)
Theorem phone_invalid_iff t :
  (exists fs,
      extract_phone_numbers t = Returns fs
      /\ Forall2
           (fun phone f =>
              value f = phone
              /\ 10 <= length (digits_of phone) <= 18
              /\ (status f = "invalid"%string
                  <-> 15 < length (digits_of phone)
                      \/ AllIdentical (digits_of phone))
              /\ (status f = "valid"%string
                  <-> length (digits_of phone) <= 15
                      /\ ~ AllIdentical (digits_of phone)))
           (findall phone_pattern t) fs)
  /\ extract_phone_numbers (txt "+123 555-123-4567 ext 12345")
     = Returns [MkFinding "phone" (txt "+123 555-123-4567 ext 12345")
                          "invalid" None].
Proof.
  split; [|vm_compute; reflexivity].
  rewrite extract_phone_numbers_eq. eexists. split; [reflexivity|].
  apply Forall2_map_in. intros phone Hin.
  pose proof (phone_candidate_digits _ _ Hin) as Hlen.
  unfold phone_finding. cbn [value status].
  split; [now apply (phone_match_strip t)|]. split; [exact Hlen|].
  destruct (validate_phone_returns phone) as [b Hb].
  rewrite (returned_true_spec Hb), label_invalid, label_valid.
  pose proof (validate_phone_true phone) as Htrue.
  unfold PhoneAccepted in Htrue. rewrite Hb in Htrue.
  assert (Hk : b = true
               <-> length (digits_of phone) <= 15
                   /\ ~ AllIdentical (digits_of phone)).
  { rewrite <- (proj1 Htrue) || idtac. split.
    - intros ->. destruct (proj1 Htrue eq_refl) as [[_ H1] H2]. tauto.
    - intros [H1 H2].
      assert (E : Returns b = Returns true) by (apply Htrue; split; [lia|tauto]).
      now injection E. }
  split; [|exact Hk]. split.
  - intros ->.
    destruct (all_identical_dec (digits_of phone)) as [Hall|Hall];
      [now right|].
    destruct (le_lt_dec (length (digits_of phone)) 15) as [Hle|Hgt];
      [|now left].
    assert (E : false = true) by (apply Hk; tauto). discriminate.
  - intros H. destruct b; [|reflexivity]. exfalso.
    destruct (proj1 Hk eq_refl) as [H1 H2]. destruct H; [lia|tauto].
Qed.

(** ** URLs: the validator and the candidates *)

Lemma contains_char_spec c s : contains_char c s = true <-> In c s.
Proof.
  unfold contains_char. rewrite existsb_exists. split.
  - intros [x [Hin E]]. apply Ascii.eqb_eq in E. now subst.
  - intros Hin. exists c. split; [exact Hin|apply Ascii.eqb_refl].
Qed.

Lemma validate_url_false url :
  validate_url url = Returns false <-> UrlRejected url.
Proof.
  unfold validate_url, UrlRejected.
  destruct (existsb _ [txt "javascript:"; _; _; _]) eqn:E1.
  { apply existsb_exists in E1 as [p [Hin Hp]]. apply startswith_spec in Hp.
    split; [intros _|reflexivity]. left. now exists p. }
  destruct (existsb _ [txt "<script"; _; _]) eqn:E2.
  { apply existsb_exists in E2 as [p [Hin Hp]]. apply contains_spec in Hp.
    split; [intros _|reflexivity]. right. left. now exists p. }
  destruct (contains_char zero url) eqn:E3.
  { apply contains_char_spec in E3. tauto. }
  split; [discriminate|]. intros [[p [Hin Hp]]|[[p [Hin Hp]]|Hz]]; exfalso.
  - assert (E : existsb (fun p => startswith p (lower url))
                        [txt "javascript:"; txt "data:"; txt "file:";
                         txt "about:"] = true); [|congruence].
    apply existsb_exists. exists p. split; [exact Hin|].
    now apply startswith_spec.
  - assert (E : existsb (fun bad => contains bad (lower url))
                        [txt "<script"; txt "onerror"; txt "onload"] = true);
      [|congruence].
    apply existsb_exists. exists p. split; [exact Hin|].
    now apply contains_spec.
  - apply contains_char_spec in Hz. congruence.
Qed.

(** X3.  [validate_url] returns [False] exactly when its argument, in
    lower case, starts with [javascript:], [data:], [file:] or [about:],
    or contains [<script], [onerror] or [onload], or when the argument
    contains the character of code 0; it returns [True] otherwise. *)
Theorem validate_url_exact url :
  (validate_url url = Returns false <-> UrlRejected url)
  /\ (validate_url url = Returns true <-> ~ UrlRejected url).
Proof.
  split; [apply validate_url_false|].
  apply returns_true_iff; [apply validate_url_returns|].
  apply validate_url_false.
Qed.

Lemma occurs_in (sub s : text) c : Occurs sub s -> In c sub -> In c s.
Proof.
  intros [pre [post ->]] Hin. apply in_or_app. right.
  apply in_or_app. now left.
Qed.

Lemma url_candidate_clean t url :
  In url (findall url_pattern t) ->
  (forall scheme,
      In scheme [txt "javascript:"; txt "data:"; txt "file:"; txt "about:"] ->
      ~ Starts scheme (lower url))
  /\ ~ Occurs (txt "<script") (lower url)
  /\ ~ In zero url.
Proof.
  intros Hin. apply findall_matches in Hin as [pre [post [prev [_ HM]]]].
  pose proof (matches_chars url_char HM ltac:(vm_compute; reflexivity))
    as Hchars.
  rewrite Forall_forall in Hchars.
  split; [|split].
  - intros scheme Hs [rest Hr].
    assert (Hh : exists rest', lower url = "h"%char :: rest').
    { destruct (url_match_scheme HM) as [[p ->]|[p ->]]; eexists;
        reflexivity. }
    destruct Hh as [rest' Hh]. rewrite Hh in Hr.
    simpl in Hs.
    destruct Hs as [<-|[<-|[<-|[<-|[]]]]]; discriminate.
  - intros Hocc.
    apply (@occurs_in _ _ "<"%char) in Hocc; [|now left].
    apply in_map_iff in Hocc as [c [Hc Hin]].
    apply Hchars in Hin. unfold url_char in Hin.
    rewrite Hc in Hin. discriminate.
  - intros Hin. apply Hchars in Hin. discriminate.
Qed.

(** X4.  A candidate that the URL pattern finds starts with [http], has
    no [<] and no character of code 0: on a candidate the scheme list,
    the [<script] word and the NUL test of [validate_url] never reject.
    A URL finding is invalid exactly when the candidate contains
    [onerror] or [onload] in any case, as in
    ['http://a.b/?onLoad=1']. *)
Theorem url_invalid_iff t :
  (exists fs,
      extract_urls t = Returns fs
      /\ Forall2
           (fun url f =>
              value f = url
              /\ (status f = "invalid"%string
                  <-> Occurs (txt "onerror") (lower url)
                      \/ Occurs (txt "onload") (lower url))
              /\ (status f = "valid"%string
                  <-> ~ Occurs (txt "onerror") (lower url)
                      /\ ~ Occurs (txt "onload") (lower url)))
           (findall url_pattern t) fs)
  /\ extract_urls (txt "see http://a.b/?onLoad=1")
     = Returns [MkFinding "url" (txt "http://a.b/?onLoad=1") "invalid" None].
Proof.
  split; [|vm_compute; reflexivity].
  rewrite extract_urls_eq. eexists. split; [reflexivity|].
  apply Forall2_map_in. intros url Hin.
  destruct (url_candidate_clean _ _ Hin) as [Hs [Hscript Hz]].
  unfold url_finding. cbn [value status]. split; [reflexivity|].
  destruct (validate_url_returns url) as [b Hb].
  rewrite (returned_true_spec Hb), label_invalid, label_valid.
  pose proof (validate_url_false url) as Hf.
  pose proof (returns_true_iff (validate_url_returns url) Hf) as Ht.
  rewrite Hb in Hf, Ht.
  assert (Hrej : UrlRejected url
                 <-> Occurs (txt "onerror") (lower url)
                     \/ Occurs (txt "onload") (lower url)).
  { unfold UrlRejected. split.
    - intros [[p [Hp1 Hp2]]|[[p [Hp1 Hp2]]|H]].
      + now apply Hs in Hp2.
      + simpl in Hp1. destruct Hp1 as [<-|[<-|[<-|[]]]]; tauto.
      + tauto.
    - intros [H|H]; right; left; eexists; (split; [|exact H]); simpl; tauto. }
  split.
  - rewrite <- Hrej, <- Hf. split; congruence.
  - assert (E : ~ Occurs (txt "onerror") (lower url)
                /\ ~ Occurs (txt "onload") (lower url) <-> ~ UrlRejected url)
      by (rewrite Hrej; tauto).
    rewrite E, <- Ht. split; congruence.
Qed.

(** ** Email candidates *)





(** ** Masked values are not candidates *)

Lemma findall_count_min P r t w :
  In w (findall r t) -> count_min P r <= count P t.
Proof.
  intros Hin. apply findall_matches in Hin as [pre [post [prev [-> HM]]]].
  apply (matches_count_min P) in HM. rewrite !count_app. lia.
Qed.

Lemma findall_nil P r t : count P t < count_min P r -> findall r t = [].
Proof.
  intros Hlt. destruct (findall r t) as [|w l] eqn:E; [reflexivity|].
  assert (Hin : In w (findall r t)) by (rewrite E; now left).
  apply (findall_count_min P) in Hin. lia.
Qed.

Lemma count_none P s :
  Forall (fun c => P c = false) s -> count P s = 0.
Proof.
  unfold count. induction 1 as [|c s Hc _ IH]; simpl; [reflexivity|].
  now rewrite Hc.
Qed.

Lemma count_le_length P s : count P s <= length s.
Proof. apply filter_length_le. Qed.

Lemma masked_counts clean :
  Forall (fun c => is_digit c = true) clean ->
  count is_digit (masked clean) <= 4
  /\ count is_at (masked clean) = 0
  /\ count is_h (masked clean) = 0.
Proof.
  intros Hd. rewrite masked_eq, !count_app.
  assert (Hstar : forall P, P "*"%char = false ->
                            count P (repeat "*"%char (length clean - 4)) = 0).
  { intros P HP. apply count_none.
    apply Forall_forall. intros c Hc. apply repeat_spec in Hc. now subst. }
  rewrite !Hstar by reflexivity.
  pose proof (last_chars_Forall 4 Hd) as Hl.
  split; [|split].
  - pose proof (count_le_length is_digit (last_chars 4 clean)).
    rewrite last_chars_length in *. lia.
  - apply count_none. eapply Forall_impl; [|exact Hl].
    intros c Hc. unfold is_at. destruct (Ascii.eqb_spec c "@"); [|reflexivity].
    subst. discriminate.
  - apply count_none. eapply Forall_impl; [|exact Hl].
    intros c Hc. unfold is_h. destruct (Ascii.eqb_spec c "h"); [|reflexivity].
    subst. discriminate.
Qed.

(** X7.  The value of a valid card finding holds no candidate of any
    category: given back to [extract_all], it yields four empty lists. *)
Theorem masked_value_has_no_candidate t fs f :
  extract_credit_cards t = Returns fs ->
  In f fs ->
  status f = "valid"%string ->
  extract_all (value f)
  = Returns [("emails"%string, []); ("urls"%string, []);
             ("phones"%string, []); ("credit_cards"%string, [])].
Proof.
  rewrite extract_credit_cards_eq. intros Hfs Hin Hst.
  injection Hfs as <-. apply in_map_iff in Hin as [card [<- Hcard]].
  apply card_finding_valid in Hst as [Hv ->]. cbn [value].
  destruct (card_candidate_shape _ _ Hcard) as [Hd _].
  rewrite <- normalized_eq in Hd.
  destruct (masked_counts Hd) as [H1 [H2 H3]].
  rewrite extract_all_eq.
  rewrite (@findall_nil is_at email_pattern),
          (@findall_nil is_h url_pattern),
          (@findall_nil is_digit phone_pattern),
          (@findall_nil is_digit credit_card_pattern); [reflexivity|..].
  - change (count_min is_digit credit_card_pattern) with 13. lia.
  - change (count_min is_digit phone_pattern) with 10. lia.
  - change (count_min is_h url_pattern) with 1. lia.
  - change (count_min is_at email_pattern) with 1. lia.
Qed.

Lemma masked_value_has_no_candidate_witness :
  extract_all (txt "************9010")
  = Returns [("emails"%string, []); ("urls"%string, []);
             ("phones"%string, []); ("credit_cards"%string, [])].
Proof.
  apply (@masked_value_has_no_candidate
           (txt "Visa: 4532 1234 5678 9010")
           [MkFinding "credit_card" (txt "************9010") "valid"
                      (Some (txt "4532 1234 5678 9010"))]
           (MkFinding "credit_card" (txt "************9010") "valid"
                      (Some (txt "4532 1234 5678 9010")))).
  - vm_compute. reflexivity.
  - simpl. left. reflexivity.
  - reflexivity.
Defined.

(** ** The case of letters *)

Lemma caseless_spec a b :
  caseless a = true -> Ascii.eqb a (lower_char b) = Ascii.eqb a b.
Proof.
  unfold caseless. rewrite forallb_forall. intros H.
  specialize (H b (in_all_chars b)). now apply Bool.eqb_prop in H.
Qed.

Lemma lower_char_idem c : lower_char (lower_char c) = lower_char c.
Proof.
  assert (H : forallb (fun c => Ascii.eqb (lower_char (lower_char c))
                                          (lower_char c)) all_chars = true)
    by (vm_compute; reflexivity).
  rewrite forallb_forall in H. apply Ascii.eqb_eq, H, in_all_chars.
Qed.

Lemma lower_idem s : lower (lower s) = lower s.
Proof.
  unfold lower. rewrite map_map. apply map_ext. apply lower_char_idem.
Qed.

Lemma startswith_lower p :
  Forall (fun a => caseless a = true) p ->
  forall s, startswith p (lower s) = startswith p s.
Proof.
  induction 1 as [|a p Ha _ IH]; intros s; [reflexivity|].
  destruct s as [|b s]; simpl; [reflexivity|].
  now rewrite (@caseless_spec a b Ha), IH.
Qed.

Lemma contains_lower sub :
  Forall (fun a => caseless a = true) sub ->
  forall s, contains sub (lower s) = contains sub s.
Proof.
  intros Hsub s. induction s as [|c s IH].
  - reflexivity.
  - change (lower (c :: s)) with (lower_char c :: lower s).
    cbn [contains]. rewrite IH. f_equal.
    apply (startswith_lower Hsub (c :: s)).
Qed.

Lemma endswith_lower p :
  Forall (fun a => caseless a = true) p ->
  forall s, endswith p (lower s) = endswith p s.
Proof.
  intros Hp s. unfold endswith, lower. rewrite <- map_rev.
  apply startswith_lower. now apply Forall_rev.
Qed.

Lemma split_lower sep :
  caseless sep = true ->
  forall s, split sep (lower s) = map lower (split sep s).
Proof.
  intros Hsep s. induction s as [|c s IH]; [reflexivity|].
  change (lower (c :: s)) with (lower_char c :: lower s). cbn [split].
  rewrite (Ascii.eqb_sym (lower_char c)), (@caseless_spec sep c Hsep),
    (Ascii.eqb_sym sep), IH.
  destruct (Ascii.eqb c sep); [reflexivity|].
  now destruct (split sep s).
Qed.

Lemma contains_char_lower c s :
  caseless c = true -> contains_char c (lower s) = contains_char c s.
Proof.
  intros Hc. unfold contains_char, lower.
  induction s as [|b s IH]; simpl; [reflexivity|].
  now rewrite (@caseless_spec c b Hc), IH.
Qed.

Lemma validate_url_lower url : validate_url (lower url) = validate_url url.
Proof.
  unfold validate_url.
  now rewrite lower_idem, contains_char_lower by (vm_compute; reflexivity).
Qed.

Lemma validate_email_lower email :
  validate_email (lower email) = validate_email email.
Proof.
  unfold validate_email.
  rewrite contains_lower, startswith_lower, endswith_lower, split_lower,
    lower_idem
    by (try (repeat constructor); vm_compute; reflexivity).
  destruct (_ || _ || _); [reflexivity|].
  destruct (split "@" email) as [|a [|b [|c l]]]; try reflexivity.
  simpl. unfold lower at 1 2. now rewrite !length_map.
Qed.

(** X8.  On strings of characters below 256, the verdicts of
    [validate_email] and [validate_url] do not depend on the case of the
    letters: two strings that are equal once put in lower case get the
    same verdict. *)
Theorem verdicts_ignore_case a b :
  lower a = lower b ->
  validate_email a = validate_email b
  /\ validate_url a = validate_url b.
Proof.
  intros E. split.
  - now rewrite <- (validate_email_lower a), E, validate_email_lower.
  - now rewrite <- (validate_url_lower a), E, validate_url_lower.
Qed.

Lemma verdicts_ignore_case_witness :
  validate_email (txt "Admin@Example.COM")
  = validate_email (txt "admin@example.com")
  /\ validate_url (txt "HTTP://Example.com/OnLoad")
     = validate_url (txt "http://example.com/onload").
Proof.
  split.
  - apply (@verdicts_ignore_case (txt "Admin@Example.COM")
                                 (txt "admin@example.com")).
    reflexivity.
  - apply (@verdicts_ignore_case (txt "HTTP://Example.com/OnLoad")
                                 (txt "http://example.com/onload")).
    reflexivity.
Defined.

(** ** The program [main] *)

Section Printing.

Variable accepts : list text -> text -> bool.

Lemma accepted_app out l1 l2 :
  accepted accepts out (l1 ++ l2)
  = accepted accepts out l1 && accepted accepts (out ++ l1) l2.
Proof.
  revert out. induction l1 as [|x l1 IH]; intros out; simpl.
  - now rewrite app_nil_r.
  - rewrite IH, <- app_assoc. simpl. now rewrite andb_assoc.
Qed.

Lemma prints_ret (A : Type) (a : A) : prints accepts (io_ret a) [] a.
Proof. intros out. left. unfold io_ret. now rewrite app_nil_r. Qed.

Lemma prints_print s : prints accepts (print accepts s) [s] tt.
Proof.
  intros out. unfold print. simpl.
  destruct (accepts out s) eqn:E; [left|right].
  - now split.
  - exists [], s, []. rewrite app_nil_r. now repeat split.
Qed.

Lemma prints_bind (A B : Type) (c : io A) (k : A -> io B) l1 l2 a b :
  prints accepts c l1 a ->
  prints accepts (k a) l2 b ->
  prints accepts (io_bind c k) (l1 ++ l2) b.
Proof.
  unfold prints, io_bind. intros Hc Hk out. rewrite accepted_app.
  destruct (Hc out) as [[E1 E1']|[l [line [rest [El [E1 [E1' E1'']]]]]]].
  - rewrite E1, E1'.
    destruct (Hk (out ++ l1))
      as [[E2 E2']|[l [line [rest [El [E2 [E2' E2'']]]]]]].
    + left. rewrite E2, E2'. split; [reflexivity|]. now rewrite app_assoc.
    + right. exists (l1 ++ l), line, rest. rewrite E2'', El.
      rewrite accepted_app, E1, E2. rewrite <- !app_assoc in *.
      now repeat split.
  - right. exists l, line, (rest ++ l2). rewrite E1'', El, <- app_assoc.
    now repeat split.
Qed.

Lemma prints_eq (A : Type) (c : io A) l l' a :
  prints accepts c l a -> l = l' -> prints accepts c l' a.
Proof. now intros H <-. Qed.

Lemma prints_for (A : Type) (body : A -> io unit) (g : A -> text) xs :
  (forall x, In x xs -> prints accepts (body x) [g x] tt) ->
  prints accepts (for_io xs body) (map g xs) tt.
Proof.
  induction xs as [|x xs IH]; intros H; simpl.
  - apply prints_ret.
  - apply (@prints_bind _ _ (body x) (fun _ => for_io xs body) [g x]
                        (map g xs) tt tt).
    + apply H. now left.
    + apply IH. intros y Hy. apply H. now right.
Qed.

Lemma prints_rejected items :
  prints accepts
    (match filter (fun item => negb (is_valid item)) items with
     | [] => io_ret tt
     | _ =>
         print accepts
               (txt "  Invalid/Rejected: "
                ++ str (length (filter (fun item => negb (is_valid item))
                                       items))) ;;;
         for_io (filter (fun item => negb (is_valid item)) items)
                (fun item =>
                   print accepts (txt "    - " ++ value item ++ txt " - "
                                    ++ txt (status item)))
     end)
    (rejected_lines items) tt.
Proof.
  unfold rejected_lines.
  destruct (filter (fun item => negb (is_valid item)) items) as [|x l] eqn:E.
  - apply prints_ret.
  - apply (@prints_bind _ _ _ _ [_] _ tt tt); [apply prints_print|].
    apply (@prints_for _ _ invalid_line). intros y _. apply prints_print.
Qed.

Lemma prints_card_line item :
  raw_format item <> None ->
  prints accepts
    (raw <~ get_raw_format item ;;
     print accepts (txt "    + " ++ value item ++ txt " (format: " ++ raw
                      ++ txt ")"))
    [card_line item (raw_or_empty item)] tt.
Proof.
  intros Hraw. unfold get_raw_format, raw_or_empty, card_line.
  destruct (raw_format item) as [r|]; [|congruence].
  apply (@prints_bind _ _ (io_ret r) _ [] [_] r tt);
    [apply prints_ret|apply prints_print].
Qed.

Lemma card_finding_valid_raw card :
  is_valid (card_finding card) = true ->
  raw_format (card_finding card) <> None.
Proof.
  unfold card_finding, is_valid.
  destruct (returned_true (validate_credit_card card)); simpl; congruence.
Qed.

(** What [main] does on an input text: it prints the report, as far as
    the standard output takes it. *)
Lemma main_body_prints input :
  prints accepts (main_body accepts input) (report input) tt.
Proof.
  unfold main_body. rewrite extract_all_eq.
  cbn [call getitem lookup String.eqb Ascii.eqb Bool.eqb].
  eapply prints_eq.
  - repeat first
      [ apply prints_print
      | apply prints_ret
      | apply prints_rejected
      | apply (@prints_for _ _ valid_line); intros; apply prints_print
      | apply (@prints_for _ _ (fun item => card_line item
                                              (raw_or_empty item)));
        intros f Hf; apply prints_card_line;
        apply filter_In in Hf as [Hin Hv];
        apply in_map_iff in Hin as [card [<- _]];
        now apply card_finding_valid_raw
      | eapply prints_bind ].
  - unfold report, section_lines. simpl.
    repeat rewrite <- app_assoc. reflexivity.
Qed.

End Printing.

Lemma main_on_eq input out :
  main_on input out = (out ++ report input, inl tt).
Proof.
  unfold main_on.
  destruct (main_body_prints (fun _ _ => true) input out)
    as [[_ E]|[l [line [rest [_ [_ [E _]]]]]]]; [exact E|discriminate].
Qed.

Lemma skipn_app_tail (A : Type) (a b : list A) :
  skipn (length (a ++ b) - length b) (a ++ b) = b.
Proof.
  rewrite length_app. replace (length a + length b - length b)
    with (length a) by lia.
  apply skipn_length_app.
Qed.

Lemma sample_report_ascii :
  forallb is_ascii_text (report SAMPLE_INPUT) = true.
Proof. vm_compute. reflexivity. Qed.

(** X9.  Whatever the text given to [extract_all] and whatever the
    standard output does, the body of [main] raises no [KeyError] and
    nothing from the engine: the four keys it reads are in the
    dictionary and every valid card item has its raw format.  Either the
    standard output takes every line of the report, which ends with the
    two entries of the JSON output, and [main] returns; or [print]
    raises at the first line that the standard output refuses, after the
    lines before it were printed.  The report of [main] on its sample
    input has no character above 127, so [main] returns when the
    standard output takes such lines. *)
Theorem main_raises_only_in_print accepts input out :
  ((exists results,
       extract_all input = Returns results
       /\ main_body accepts input out = (out ++ report input, inl tt)
       /\ accepted accepts out (report input) = true
       /\ skipn (length (report input) - 2) (report input)
          = [newline :: txt "JSON OUTPUT:"; json_dumps results])
   \/ (exists printed line rest,
         main_body accepts input out = (out ++ printed, inr PrintError)
         /\ report input = printed ++ line :: rest
         /\ accepted accepts out printed = true
         /\ accepts (out ++ printed) line = false))
  /\ ((forall o line, is_ascii_text line = true -> accepts o line = true) ->
      main accepts out = (out ++ report SAMPLE_INPUT, inl tt)).
Proof.
  split.
  - destruct (main_body_prints accepts input out)
      as [[E E']|[l [line [rest [El [E [E' E'']]]]]]]; [left|right].
    + eexists. rewrite extract_all_eq.
      split; [reflexivity|]. split; [exact E'|]. split; [exact E|].
      unfold report. rewrite !app_assoc.
      apply (skipn_app_tail _ [_; _]).
    + exists l, line, rest. now repeat split.
  - intros Hascii. unfold main.
    destruct (main_body_prints accepts SAMPLE_INPUT out)
      as [[_ E]|[l [line [rest [El [_ [E _]]]]]]]; [exact E|].
    rewrite Hascii in E; [discriminate|].
    pose proof sample_report_ascii as Hs. rewrite forallb_forall in Hs.
    apply Hs. rewrite El. apply in_or_app. right. now left.
Qed.

Lemma main_raises_only_in_print_witness :
  main (fun _ line => is_ascii_text line) []
  = ([] ++ report SAMPLE_INPUT, inl tt).
Proof.
  apply (proj2 (@main_raises_only_in_print
                  (fun _ line => is_ascii_text line) [] [])).
  intros o line Hline. exact Hline.
Defined.

Lemma in_section_valid title items line f :
  In f items -> is_valid f = true ->
  In (line f) (section_lines title items line).
Proof.
  intros Hin Hv. unfold section_lines. apply in_or_app. right.
  apply in_or_app. left. apply in_map. apply filter_In. now split.
Qed.

Lemma in_section_invalid title items line f :
  In f items -> is_valid f = false ->
  In (invalid_line f) (section_lines title items line).
Proof.
  intros Hin Hv. unfold section_lines. apply in_or_app. right.
  apply in_or_app. right. apply in_or_app. left.
  unfold rejected_lines.
  assert (Hf : In f (filter (fun item => negb (is_valid item)) items))
    by (apply filter_In; split; [exact Hin|now rewrite Hv]).
  destruct (filter (fun item => negb (is_valid item)) items) as [|x l];
    [destruct Hf|].
  right. now apply in_map.
Qed.

(** X10.  [main] prints every card candidate of its input in full.  A
    candidate that passes [validate_credit_card] is printed behind its
    masked value, in the [format:] part of its line, under the heading
    that says MASKED FOR SECURITY; a candidate that fails is printed as
    the value of its line. *)
Theorem main_prints_card_numbers input card :
  In card (findall credit_card_pattern input) ->
  (validate_credit_card card = Returns true
   /\ In (txt "    + " ++ masked (normalized card) ++ txt " (format: "
          ++ card ++ txt ")")
         (fst (main_on input [])))
  \/ (validate_credit_card card = Returns false
      /\ In (txt "    - " ++ card ++ txt " - invalid")
            (fst (main_on input []))).
Proof.
  intros Hin. rewrite main_on_eq. cbn [fst app]. unfold report.
  assert (Hf : In (card_finding card)
                  (map card_finding (findall credit_card_pattern input)))
    by now apply in_map.
  destruct (validate_credit_card_returns card) as [[|] Hb]; [left|right];
    (split; [exact Hb|]).
  - apply in_or_app. right. do 3 (apply in_or_app; right).
    apply in_or_app. left.
    pose proof (@in_section_valid
                  (txt "CREDIT CARDS FOUND (MASKED FOR SECURITY):") _
                  (fun item => card_line item (raw_or_empty item))
                  (card_finding card) Hf) as H.
    assert (E : card_finding card
                = MkFinding "credit_card" (masked (normalized card)) "valid"
                            (Some card))
      by (unfold card_finding; now rewrite Hb).
    rewrite E in H. apply H. reflexivity.
  - apply in_or_app. right. do 3 (apply in_or_app; right).
    apply in_or_app. left.
    pose proof (@in_section_invalid
                  (txt "CREDIT CARDS FOUND (MASKED FOR SECURITY):") _
                  (fun item => card_line item (raw_or_empty item))
                  (card_finding card) Hf) as H.
    assert (E : card_finding card
                = MkFinding "credit_card" card "invalid" None)
      by (unfold card_finding; now rewrite Hb).
    rewrite E in H. apply H. reflexivity.
Qed.

Lemma main_prints_card_numbers_witness :
  (validate_credit_card (txt "4532 1234 5678 9010") = Returns true
   /\ In (txt "    + " ++ masked (normalized (txt "4532 1234 5678 9010"))
          ++ txt " (format: " ++ txt "4532 1234 5678 9010" ++ txt ")")
         (fst (main_on (txt "Visa: 4532 1234 5678 9010") [])))
  \/ (validate_credit_card (txt "4532 1234 5678 9010") = Returns false
      /\ In (txt "    - " ++ txt "4532 1234 5678 9010" ++ txt " - invalid")
            (fst (main_on (txt "Visa: 4532 1234 5678 9010") []))).
Proof.
  apply (@main_prints_card_numbers (txt "Visa: 4532 1234 5678 9010")
                                   (txt "4532 1234 5678 9010")).
  vm_compute. left. reflexivity.
Defined.
